(** * The assembler's semantic parser (tools/sources/assembler/assembler/parser.py)

    A shallow embedding of [parser.py]: the operand parsers, the argument
    dispatcher [parse_args] and the line loop [parse], followed by the
    properties of the specification that concern them.

    Python exceptions are explicit: a call returns a value, raises
    [ParseError] (the structured failure of the parser) or raises one of the
    built-in exceptions that no handler of the module catches. *)

From Stdlib Require Import ZArith List String DecimalString Lia.
From stdpp Require Import gmap strings list.

Local Open Scope string_scope.
Local Open Scope list_scope.
Local Open Scope Z_scope.

(** ** Tokens and enumerations (token_enums) *)

Inductive TokenType := INSTRUCTION | REGISTER | UINT | STRING | SYNTAX | LABEL.

(** Modelled from the spec: the members of the [Syntax] enumeration of
    token_enums.py that the parser names, [Syntax_other] standing for any
    further member. *)
Inductive Syntax :=
| Syntax_comma | Syntax_colon | Syntax_lbracket | Syntax_rbracket
| Syntax_plus | Syntax_shl | Syntax_shr
| Syntax_other (symbol : string).

Inductive ShiftType := ShiftType_shl | ShiftType_shr.

(** The sized-number classes the parser uses. *)
Inductive NumType := Uint5 | Uint16 | Uint24.

(** The parseable operand classes ([instruction_arg_types]); one [parse_*]
    visitor of parser.py per class. *)
Inductive ArgType := Register_t | PointerDeref_t | Shift_t | Uint16_t | Uint24_t.

(** One position of an opcode's signature: a single class, or an iterable of
    alternative classes. *)
Inductive ArgSpec :=
| Single (arg_type : ArgType)
| Alternatives (arg_types : list ArgType).

(** A member of the instruction enumeration: its [name] and its [value], the
    declared operand positions. *)
Module InstructionEnum.
Record t := { name : string; value : list ArgSpec }.
End InstructionEnum.

(** The payload of a token, by its Python type. *)
Inductive TokenValue (Register : Type) :=
| VInstruction (i : InstructionEnum.t)
| VRegister (r : Register)
| VInt (n : Z)
| VStr (s : string)
| VSyntax (s : Syntax).
Arguments VInstruction {Register} i.
Arguments VRegister {Register} r.
Arguments VInt {Register} n.
Arguments VStr {Register} s.
Arguments VSyntax {Register} s.

Module Token.
Record t (Register : Type) := mk
  { type : TokenType; value : TokenValue Register; text : string; line : Z }.
Arguments mk {Register} type value text line.
Arguments type {Register} _.
Arguments value {Register} _.
Arguments text {Register} _.
Arguments line {Register} _.
End Token.

(** ** Operand values *)

Record PositiveSizedNumber := { num_type : NumType; num : Z }.

Record Shift (Register : Type) := mkShift
  { shift_type : ShiftType; shift_register : Register; amount : PositiveSizedNumber }.
Arguments mkShift {Register} _ _ _.
Arguments shift_type {Register} _.
Arguments shift_register {Register} _.
Arguments amount {Register} _.

Inductive Increment (Register : Type) :=
| IncrementNumber (n : PositiveSizedNumber)
| IncrementShift (s : Shift Register).
Arguments IncrementNumber {Register} n.
Arguments IncrementShift {Register} s.

Record PointerDeref (Register : Type) := mkPointerDeref
  { register : Register; increment : Increment Register }.
Arguments mkPointerDeref {Register} _ _.
Arguments register {Register} _.
Arguments increment {Register} _.

Inductive InstructionArg (Register : Type) :=
| ArgRegister (r : Register)
| ArgPointerDeref (p : PointerDeref Register)
| ArgShift (s : Shift Register)
| ArgNumber (n : PositiveSizedNumber).
Arguments ArgRegister {Register} r.
Arguments ArgPointerDeref {Register} p.
Arguments ArgShift {Register} s.
Arguments ArgNumber {Register} n.

Module Instruction.
Record t (Register : Type) := mk
  { type : InstructionEnum.t; args : list (InstructionArg Register) }.
Arguments mk {Register} type args.
Arguments type {Register} _.
Arguments args {Register} _.
End Instruction.

Module InstructionsNT.
Record t (Register : Type) := mk
  { instructions : list (Instruction.t Register); symbol_table : gmap string Z }.
Arguments mk {Register} instructions symbol_table.
Arguments instructions {Register} _.
Arguments symbol_table {Register} _.
End InstructionsNT.

(** ** Errors (errors.py) *)

(** The messages the parser builds, one constructor per f-string template,
    carrying the interpolated fields. *)
Inductive Message (Register : Type) :=
| Empty_operand
| Extra_text (extra : string)
| Token_instead_of (token_text : string) (token_types : list TokenType)
| Number_too_large (value max : Z) (original_text : string)
| Invalid_pointer_dereference (tokens : list (Token.t Register))
| Expected_plus_sign (got : string)
| Increment_is_invalid (increment_text : string)
| Invalid_operator (operator_text : string)
| Opcode_takes_arguments (opcode : string) (expected given : nat).
Arguments Empty_operand {Register}.
Arguments Extra_text {Register} extra.
Arguments Token_instead_of {Register} token_text token_types.
Arguments Number_too_large {Register} value max original_text.
Arguments Invalid_pointer_dereference {Register} tokens.
Arguments Expected_plus_sign {Register} got.
Arguments Increment_is_invalid {Register} increment_text.
Arguments Invalid_operator {Register} operator_text.
Arguments Opcode_takes_arguments {Register} opcode expected given.

(** Modelled from the spec: errors.py is not part of the sources. A rendered
    error lists (message, line) entries in the order they were found;
    [format_error] renders one entry, [ParseError message line] carries
    [format_error message line] as its [args[0]], and [collect_errors]
    makes the aggregate of the rendered errors it is given. *)
Definition ErrorText (Register : Type) : Type := list (Message Register * Z).

Definition format_error {Register} (message : Message Register) (line : Z)
  : ErrorText Register := [(message, line)].

(** The built-in exceptions the module can raise and never catches. *)
Inductive PyException := IndexError | AssertionError | UnboundLocalError | TypeError.

Inductive Result (Register A : Type) :=
| Return (a : A)
| Raise_ParseError (args0 : ErrorText Register)
| Raise (e : PyException).
Arguments Return {Register A} a.
Arguments Raise_ParseError {Register A} args0.
Arguments Raise {Register A} e.

Definition ParseError {Register A} (message : Message Register) (line : Z)
  : Result Register A := Raise_ParseError (format_error message line).

Definition collect_errors {Register A} (errors : list (ErrorText Register))
  : Result Register A := Raise_ParseError (concat errors).

Definition bind {Register A B} (m : Result Register A) (k : A -> Result Register B)
  : Result Register B :=
  match m with
  | Return a => k a
  | Raise_ParseError e => Raise_ParseError e
  | Raise e => Raise e
  end.

Notation "'let!' x ':=' m 'in' k" := (bind m (fun x => k))
  (at level 10, x name, m at level 100, k at level 200).
Notation "m ';;!' k" := (bind m (fun _ => k))
  (at level 100, k at level 200, right associativity).

(** [assert c]. *)
Definition assert {Register} (c : bool) : Result Register unit :=
  if c then Return tt else Raise AssertionError.

(** [seq[i]] for a non-negative index [i]. *)
Definition index {Register A} (seq : list A) (i : nat) : Result Register A :=
  match nth_error seq i with
  | Some a => Return a
  | None => Raise IndexError
  end.

(** [seq[-1]]. *)
Definition index_last {Register A} (seq : list A) : Result Register A :=
  match seq with
  | [] => Raise IndexError
  | a :: seq' => Return (List.last seq' a)
  end.

(** The local variables of [parse]. *)
Module Locals.
Record t (Register : Type) := mk
  { instructions : list (Instruction.t Register);
    symbol_table : gmap string Z;
    ip : Z;
    errors : list (ErrorText Register) }.
Arguments mk {Register} instructions symbol_table ip errors.
Arguments instructions {Register} _.
Arguments symbol_table {Register} _.
Arguments ip {Register} _.
Arguments errors {Register} _.
End Locals.

(** A statement of [parse]: it updates the local variables and then completes
    or raises; the variables keep the updates made before an exception. *)
Definition Stmt (Register A : Type) : Type :=
  Locals.t Register -> Locals.t Register * Result Register A.

Definition pure {Register A} (a : A) : Stmt Register A :=
  fun vars => (vars, Return a).

Definition eval {Register A} (r : Result Register A) : Stmt Register A :=
  fun vars => (vars, r).

Definition read {Register} : Stmt Register (Locals.t Register) :=
  fun vars => (vars, Return vars).

Definition update {Register} (f : Locals.t Register -> Locals.t Register)
  : Stmt Register unit :=
  fun vars => (f vars, Return tt).

Definition then_ {Register A B} (m : Stmt Register A) (k : A -> Stmt Register B)
  : Stmt Register B :=
  fun vars =>
    match m vars with
    | (vars', Return a) => k a vars'
    | (vars', Raise_ParseError e) => (vars', Raise_ParseError e)
    | (vars', Raise e) => (vars', Raise e)
    end.

Notation "'let*' x ':=' m 'in' k" := (then_ m (fun x => k))
  (at level 10, x name, m at level 100, k at level 200).
Notation "m ';;*' k" := (then_ m (fun _ => k))
  (at level 100, k at level 200, right associativity).

(** What [num_type(raw)] does: it constructs the number, raises
    [OverflowError_], or is given something that is no number. *)
Inductive Construction :=
| Constructed (n : PositiveSizedNumber)
| OverflowError_
| NotANumber.

(** How the inner [for ... else] of [parse_args] over the alternatives of one
    position ends: by [break] with [parsed_arg], in its [else] clause, or by
    an exception that is not a [ParseError]. *)
Inductive Trial (Register : Type) :=
| Parsed (parsed_arg : InstructionArg Register)
| Exhausted
| Uncaught (e : PyException).
Arguments Parsed {Register} parsed_arg.
Arguments Exhausted {Register}.
Arguments Uncaught {Register} e.

Global Instance TokenType_eq_dec : EqDecision TokenType.
Proof. solve_decision. Defined.

Section Parser.
Context {Register : Type}.

(** The number a string payload stands for: the conversion belongs to
    sized_numbers.py, which is not part of the sources. *)
Variable int_of_str : string -> Z.

Local Abbreviation Tok := (Token.t Register).
Local Abbreviation Res := (Result Register).

(** *** comma_split *)

Definition is_comma (token : Tok) : bool :=
  match Token.type token, Token.value token with
  | SYNTAX, VSyntax Syntax_comma => true
  | _, _ => false
  end.

(** The generator's loop, [current_tokens] being its accumulator. *)
Fixpoint comma_split_from (current_tokens tokens : list Tok) : list (list Tok) :=
  match tokens with
  | [] => match current_tokens with [] => [] | _ :: _ => [current_tokens] end
  | token :: tokens' =>
      if is_comma token
      then current_tokens :: comma_split_from [] tokens'
      else comma_split_from (current_tokens ++ [token]) tokens'
  end.

Definition comma_split (tokens : list Tok) : list (list Tok) :=
  comma_split_from [] tokens.

(** *** Token checks *)

Definition empty_token_check (tokens : list Tok) (line : Z) : Res (list Tok) :=
  match tokens with
  | [] => ParseError Empty_operand line
  | _ :: _ => Return tokens
  end.

Definition extact_token (one_token : list Tok) (line : Z) : Res Tok :=
  empty_token_check one_token line ;;!
  if (1 <? length one_token)%nat
  then ParseError (Extra_text (String.concat "" (map Token.text (tail one_token)))) line
  else index one_token 0.

Definition token_type_check (token : Tok) (token_types : list TokenType) (line : Z)
  : Res Tok :=
  if decide (Token.type token ∈ token_types)
  then Return token
  else ParseError (Token_instead_of (Token.text token) token_types) line.

(** *** Sized numbers (sized_numbers.py) *)

Definition bits (num_type : NumType) : Z :=
  match num_type with Uint5 => 5 | Uint16 => 16 | Uint24 => 24 end.

Definition MAX (num_type : NumType) : Z := 2 ^ bits num_type - 1.

(** Modelled from the spec: sized_numbers.py is not part of the sources.
    [num_type(raw)] takes an integer or a string that represents one and
    gives the value in [0, MAX]; out of that range it raises
    [OverflowError_]. Any other payload is not a number. *)
Definition construct (num_type : NumType) (raw : TokenValue Register) : Construction :=
  let check v :=
    if (0 <=? v) && (v <=? MAX num_type)
    then Constructed {| num_type := num_type; num := v |}
    else OverflowError_ in
  match raw with
  | VInt n => check n
  | VStr s => check (int_of_str s)
  | _ => NotANumber
  end.

(** [Uint5(0)] and [Uint16(0)]. *)
Definition zero (num_type : NumType) : PositiveSizedNumber :=
  {| num_type := num_type; num := 0 |}.

Definition extract_token_num (token : Tok) (num_type : NumType) (line : Z)
  : Res PositiveSizedNumber :=
  token_type_check token [UINT; STRING] line ;;!
  match construct num_type (Token.value token) with
  | Constructed n => Return n
  | OverflowError_ =>
      match Token.value token with
      | VInt value =>
          ParseError (Number_too_large value (MAX num_type) (Token.text token)) line
      | _ => Raise AssertionError
      end
  | NotANumber => Raise TypeError
  end.

(** *** The Parseable visitors *)

Definition parse_Register (tokens : list Tok) (line : Z) : Res Register :=
  let! token :=
    (let! one := extact_token tokens line in token_type_check one [REGISTER] line) in
  match Token.value token with
  | VRegister r => Return r
  | _ => Raise AssertionError
  end.

(** Modelled from the spec: parseable.py is not part of the sources.
    [T.parse(tokens, line)] is the visitor [parse_T(T, tokens, line)]; the
    single token the pointer and shift parsers hand to [Register.parse] is
    parsed as a Register, that is as the slice holding that one token. *)
Definition Register_parse (token : Tok) (line : Z) : Res Register :=
  parse_Register [token] line.

Definition parse_number (cls : NumType) (tokens : list Tok) (line : Z)
  : Res PositiveSizedNumber :=
  let! one := extact_token tokens line in extract_token_num one cls line.

Definition parse_Uint16 := parse_number Uint16.
Definition parse_Uint24 := parse_number Uint24.

Definition is_shift_operator (v : TokenValue Register) : bool :=
  match v with
  | VSyntax Syntax_shr | VSyntax Syntax_shl => true
  | _ => false
  end.

(** [ShiftType[syntax.name]]. *)
Definition ShiftType_of_name (v : TokenValue Register) : Res ShiftType :=
  match v with
  | VSyntax Syntax_shl => Return ShiftType_shl
  | VSyntax Syntax_shr => Return ShiftType_shr
  | _ => Raise AssertionError
  end.

Definition parse_Shift (tokens : list Tok) (line : Z) : Res (Shift Register) :=
  empty_token_check tokens line ;;!
  let! first := index tokens 0 in
  let! register := Register_parse first line in
  if (length tokens =? 1)%nat
  then Return (mkShift ShiftType_shl register (zero Uint5))
  else
    let! second := index tokens 1 in
    if negb (is_shift_operator (Token.value second))
    then ParseError (Invalid_operator (Token.text second)) line
    else
      let! shift_type := ShiftType_of_name (Token.value second) in
      let! one := extact_token (drop 2 tokens) line in
      let! amount := extract_token_num one Uint5 line in
      Return (mkShift shift_type register amount).

(** Modelled from the spec: [exception_chain] of errors.py is not part of
    the sources. The parsers are tried in order on the same arguments, the
    first success wins, and when all fail with a [ParseError] the given
    final error is raised. *)
Fixpoint exception_chain {A} (parsers : list (list Tok -> Z -> Res A))
    (final_error : ErrorText Register) (tokens : list Tok) (line : Z) : Res A :=
  match parsers with
  | [] => Raise_ParseError final_error
  | parser :: parsers' =>
      match parser tokens line with
      | Return a => Return a
      | Raise_ParseError _ => exception_chain parsers' final_error tokens line
      | Raise e => Raise e
      end
  end.

Definition value_is (token : Tok) (s : Syntax) : bool :=
  match Token.value token, s with
  | VSyntax Syntax_comma, Syntax_comma
  | VSyntax Syntax_colon, Syntax_colon
  | VSyntax Syntax_lbracket, Syntax_lbracket
  | VSyntax Syntax_rbracket, Syntax_rbracket
  | VSyntax Syntax_plus, Syntax_plus
  | VSyntax Syntax_shl, Syntax_shl
  | VSyntax Syntax_shr, Syntax_shr => true
  | VSyntax (Syntax_other a), Syntax_other b => bool_decide (a = b)
  | _, _ => false
  end.

(** [tokens[3:-1]]. *)
Definition increment_tokens (tokens : list Tok) : list Tok :=
  removelast (drop 3 tokens).

Definition parse_PointerDeref (tokens : list Tok) (line : Z)
  : Res (PointerDeref Register) :=
  empty_token_check tokens line ;;!
  let! first := index tokens 0 in
  let! last := index_last tokens in
  if negb (value_is first Syntax_lbracket) || negb (value_is last Syntax_rbracket)
  then ParseError (Invalid_pointer_dereference tokens) line
  else
    let! second := index tokens 1 in
    let! register := Register_parse second line in
    if (3 <? length tokens)%nat
    then
      let! third := index tokens 2 in
      if negb (value_is third Syntax_plus)
      then ParseError (Expected_plus_sign (Token.text third)) line
      else
        let error_message :=
          Increment_is_invalid
            (String.concat "" (map Token.text (increment_tokens tokens))) in
        let! increment :=
          exception_chain
            [ (fun tokens line =>
                 let! n := parse_Uint16 tokens line in Return (IncrementNumber n));
              (fun tokens line =>
                 let! s := parse_Shift tokens line in Return (IncrementShift s)) ]
            (format_error error_message line)
            (increment_tokens tokens) line in
        Return (mkPointerDeref register increment)
    else Return (mkPointerDeref register (IncrementNumber (zero Uint16))).

(** *** parse_args *)

(** [arg_type.parse(tokens, line)], by the class of the operand. *)
Definition parse_arg (arg_type : ArgType) (tokens : list Tok) (line : Z)
  : Res (InstructionArg Register) :=
  match arg_type with
  | Register_t => let! r := parse_Register tokens line in Return (ArgRegister r)
  | PointerDeref_t =>
      let! p := parse_PointerDeref tokens line in Return (ArgPointerDeref p)
  | Shift_t => let! s := parse_Shift tokens line in Return (ArgShift s)
  | Uint16_t => let! n := parse_Uint16 tokens line in Return (ArgNumber n)
  | Uint24_t => let! n := parse_Uint24 tokens line in Return (ArgNumber n)
  end.

(** [(arg_types,)] for a single class. *)
Definition as_tuple (arg_types : ArgSpec) : list ArgType :=
  match arg_types with
  | Single arg_type => [arg_type]
  | Alternatives arg_types => arg_types
  end.

(** The inner loop. [error] is the local variable of that name, [None]
    while it is unbound; it is returned as the loop leaves it. *)
Fixpoint try_arg_types (arg_types : list ArgType) (arg : list Tok)
    (error : option (ErrorText Register))
  : Trial Register * option (ErrorText Register) :=
  match arg_types with
  | [] => (Exhausted, error)
  | arg_type :: arg_types' =>
      match (let! first := index arg 0 in parse_arg arg_type arg (Token.line first)) with
      | Return parsed_arg => (Parsed parsed_arg, error)
      | Raise_ParseError args0 => try_arg_types arg_types' arg (Some args0)
      | Raise e => (Uncaught e, error)
      end
  end.

(** The outer loop over [zip(parser_types, args)]; [yielded] are the
    values the generator has yielded so far. *)
Fixpoint parse_args_loop (pairs : list (ArgSpec * list Tok))
    (errors : list (ErrorText Register)) (error : option (ErrorText Register))
    (yielded : list (InstructionArg Register)) : Res (list (InstructionArg Register)) :=
  match pairs with
  | [] =>
      match errors with
      | [] => Return yielded
      | _ :: _ => collect_errors errors
      end
  | (arg_types, arg) :: pairs' =>
      match try_arg_types (as_tuple arg_types) arg error with
      | (Parsed parsed_arg, error') =>
          parse_args_loop pairs' errors error'
            (match errors with [] => yielded ++ [parsed_arg] | _ :: _ => yielded end)
      | (Exhausted, Some args0) =>
          parse_args_loop pairs' (errors ++ [args0]) (Some args0) yielded
      | (Exhausted, None) => Raise UnboundLocalError
      | (Uncaught e, _) => Raise e
      end
  end.

(** The generator, run to its end as [list(args)] does. *)
Definition parse_args (parser_types : list ArgSpec) (args : list (list Tok))
  : Res (list (InstructionArg Register)) :=
  parse_args_loop (combine parser_types args) [] None [].

(** *** parse *)

Local Abbreviation Vars := (Locals.t Register).

Definition set_symbol (name : string) (address : Z) (vars : Vars) : Vars :=
  Locals.mk (Locals.instructions vars)
    (<[name := address]> (Locals.symbol_table vars))
    (Locals.ip vars) (Locals.errors vars).

Definition add_ip (step : Z) (vars : Vars) : Vars :=
  Locals.mk (Locals.instructions vars) (Locals.symbol_table vars)
    (Locals.ip vars + step) (Locals.errors vars).

Definition append_error (e : ErrorText Register) (vars : Vars) : Vars :=
  Locals.mk (Locals.instructions vars) (Locals.symbol_table vars)
    (Locals.ip vars) (Locals.errors vars ++ [e]).

Definition append_instruction (i : Instruction.t Register) (vars : Vars) : Vars :=
  Locals.mk (Locals.instructions vars ++ [i]) (Locals.symbol_table vars)
    (Locals.ip vars) (Locals.errors vars).

Definition is_TokenType (a b : TokenType) : bool := bool_decide (a = b).

(** [assert isinstance(v, str)], giving the string. *)
Definition assert_str (v : TokenValue Register) : Res string :=
  match v with VStr s => Return s | _ => Raise AssertionError end.

(** [assert isinstance(v, InstructionEnum)], giving the member. *)
Definition assert_InstructionEnum (v : TokenValue Register) : Res InstructionEnum.t :=
  match v with VInstruction i => Return i | _ => Raise AssertionError end.

(** The body of the [for line in tokens] loop. *)
Definition parse_line (line : list Tok) : Stmt Register unit :=
  let* first := eval (index line 0) in
  let line_num := Token.line first in
  let* last := eval (index_last line) in
  if value_is last Syntax_colon
  then
    eval (assert (is_TokenType (Token.type last) SYNTAX)) ;;*
    eval (assert (length line =? 2)%nat) ;;*
    eval (assert (is_TokenType (Token.type first) LABEL)) ;;*
    let* name := eval (assert_str (Token.value first)) in
    let* vars := read in
    update (set_symbol name (Locals.ip vars + 1))
  else
    update (add_ip 32) ;;*
    eval (assert (is_TokenType (Token.type first) INSTRUCTION)) ;;*
    let* instruction := eval (assert_InstructionEnum (Token.value first)) in
    let raw_args := comma_split (tail line) in
    (if negb (length raw_args =? length (InstructionEnum.value instruction))%nat
     then
       update (append_error
                 (format_error
                    (Opcode_takes_arguments (InstructionEnum.name instruction)
                       (length (InstructionEnum.value instruction)) (length raw_args))
                    line_num))
     else pure tt) ;;*
    let* args := eval (parse_args (InstructionEnum.value instruction) raw_args) in
    update (append_instruction (Instruction.mk instruction args)).

Fixpoint parse_lines (tokens : list (list Tok)) : Stmt Register unit :=
  match tokens with
  | [] => pure tt
  | line :: tokens' => parse_line line ;;* parse_lines tokens'
  end.

Definition initial : Vars := Locals.mk [] ∅ 0 [].

(** What follows the loop. *)
Definition finish : Stmt Register (InstructionsNT.t Register) :=
  let* vars := read in
  match Locals.errors vars with
  | _ :: _ => eval (collect_errors (Locals.errors vars))
  | [] => pure (InstructionsNT.mk (Locals.instructions vars) (Locals.symbol_table vars))
  end.

Definition parse (tokens : list (list Tok)) : Res (InstructionsNT.t Register) :=
  snd ((parse_lines tokens ;;* finish) initial).

End Parser.


(** ** Vocabulary of the statements *)

(** Tokens as the tokenizer makes them: the payload has the Python type that
    goes with the token type. *)
Definition instruction_token {Register} (i : InstructionEnum.t) (text : string) (line : Z)
  : Token.t Register := Token.mk INSTRUCTION (VInstruction i) text line.

Definition register_token {Register} (r : Register) (text : string) (line : Z)
  : Token.t Register := Token.mk REGISTER (VRegister r) text line.

Definition uint_token {Register} (n : Z) (text : string) (line : Z)
  : Token.t Register := Token.mk UINT (VInt n) text line.

Definition string_token {Register} (s : string) (text : string) (line : Z)
  : Token.t Register := Token.mk STRING (VStr s) text line.

Definition syntax_token {Register} (s : Syntax) (text : string) (line : Z)
  : Token.t Register := Token.mk SYNTAX (VSyntax s) text line.

Definition label_token {Register} (name : string) (text : string) (line : Z)
  : Token.t Register := Token.mk LABEL (VStr name) text line.

(** A label-definition line for [name]: a LABEL token carrying the name and
    the [:] SYNTAX token. *)
Definition is_label_definition {Register} (name : string) (line : list (Token.t Register))
  : bool :=
  match line with
  | [label; colon] =>
      bool_decide (Token.type label = LABEL) &&
      match Token.value label with VStr s => bool_decide (s = name) | _ => false end &&
      bool_decide (Token.type colon = SYNTAX) &&
      match Token.value colon with VSyntax Syntax_colon => true | _ => false end
  | _ => false
  end.

Definition label_line {Register} (name : string) (line : Z) : list (Token.t Register) :=
  [label_token name name line; syntax_token Syntax_colon ":" line].

(** The line ends with a token whose value is [Syntax[":"]]: the test by which
    [parse] tells a label definition from an instruction. *)
Definition ends_with_colon {Register} (line : list (Token.t Register)) : bool :=
  match line with
  | [] => false
  | first :: rest => value_is (List.last rest first) Syntax_colon
  end.


(** The number an immediate token carries. *)
Definition numeric_value {Register} (int_of_str : string -> Z) (token : Token.t Register)
  : option Z :=
  match Token.value token with
  | VInt n => Some n
  | VStr s => Some (int_of_str s)
  | _ => None
  end.

(** The locals after the arity check of an instruction line. *)
Definition after_arity_check {Register} (i : InstructionEnum.t) (raw_args : list (list (Token.t Register)))
    (line_num : Z) (vars : Locals.t Register)
  : Locals.t Register :=
  if negb (length raw_args =? length (InstructionEnum.value i))%nat
  then append_error
         (format_error
            (Opcode_takes_arguments (InstructionEnum.name i)
               (length (InstructionEnum.value i)) (length raw_args))
            line_num)
         (add_ip 32 vars)
  else add_ip 32 vars.

(** The commas of a token list, and what is left of it without them. *)
Definition commas {Register} (tokens : list (Token.t Register)) : list (Token.t Register) :=
  List.filter is_comma tokens.

Definition operands {Register} (tokens : list (Token.t Register)) : list (Token.t Register) :=
  List.filter (fun token => negb (is_comma token)) tokens.

(** The list ends with a token that is not a comma: the generator of
    [comma_split] leaves its loop with a group to yield. *)
Definition ends_in_operand {Register} (tokens : list (Token.t Register)) : bool :=
  match last tokens with
  | Some token => negb (is_comma token)
  | None => false
  end.

(** The payload of the token has the Python type that goes with the type of
    the token: the contract of the tokenizer. *)
Definition well_typed {Register} (token : Token.t Register) : bool :=
  match Token.type token, Token.value token with
  | INSTRUCTION, VInstruction _
  | REGISTER, VRegister _
  | UINT, VInt _
  | STRING, VStr _
  | SYNTAX, VSyntax _
  | LABEL, VStr _ => true
  | _, _ => false
  end.

(** The [Syntax] member a shift type is named after. *)
Definition Syntax_of_ShiftType (shift_type : ShiftType) : Syntax :=
  match shift_type with
  | ShiftType_shl => Syntax_shl
  | ShiftType_shr => Syntax_shr
  end.

(** The lines of a file that [parse] takes as instructions: those that do
    not end with a colon. *)
Definition instruction_lines {Register} (tokens : list (list (Token.t Register)))
  : list (list (Token.t Register)) :=
  List.filter (fun line => negb (ends_with_colon line)) tokens.

(** ** Sample instruction set for the concrete cases

    The instruction table and the register enumeration belong to
    token_enums.py; the concrete cases below use three registers, three
    opcodes and numeric strings read in decimal. *)

Inductive SampleRegister := R1 | R2 | R3.

Definition ADD : InstructionEnum.t :=
  {| InstructionEnum.name := "ADD";
     InstructionEnum.value := [Single Register_t; Single Register_t; Single Register_t] |}.

Definition MOV : InstructionEnum.t :=
  {| InstructionEnum.name := "MOV";
     InstructionEnum.value := [Single Register_t; Alternatives [Register_t; Uint16_t]] |}.

Definition NOT : InstructionEnum.t :=
  {| InstructionEnum.name := "NOT"; InstructionEnum.value := [Single Register_t] |}.

Definition decimal (s : string) : Z :=
  match NilZero.uint_of_string s with
  | Some d => Z.of_uint d
  | None => 0
  end.

(** ** Properties *)

Section Properties.
Context {Register : Type}.
Variable int_of_str : string -> Z.

Local Abbreviation Tok := (Token.t Register).
Local Abbreviation Vars := (Locals.t Register).

Ltac run := unfold then_, eval, update, pure, read, assert; simpl.

(** *** The line loop *)

Lemma is_label_definition_inv (name : string) (line : list Tok) :
  is_label_definition name line = true ->
  exists label colon,
    line = [label; colon] /\ Token.type label = LABEL /\ Token.value label = VStr name /\
    Token.type colon = SYNTAX /\ Token.value colon = VSyntax Syntax_colon.
Proof.
  destruct line as [|label [|colon [|]]]; simpl; try discriminate.
  intros H. exists label, colon.
  repeat (apply andb_prop in H as [H ?]).
  destruct (Token.value label) eqn:Hl; try discriminate.
  destruct (Token.value colon) as [| | | |[]] eqn:Hc; try discriminate.
  repeat match goal with H : bool_decide _ = true |- _ => apply bool_decide_eq_true in H end.
  subst. auto.
Qed.

Lemma parse_line_label (name : string) (line : list Tok) (vars : Vars) :
  is_label_definition name line = true ->
  parse_line int_of_str line vars
  = (set_symbol name (Locals.ip vars + 1) vars, Return tt).
Proof.
  intros (label & colon & -> & Hlt & Hlv & Hct & Hcv)%is_label_definition_inv.
  unfold parse_line. run.
  unfold value_is. rewrite Hcv, Hct, Hlt, Hlv. reflexivity.
Qed.

Lemma label_line_is_definition (name : string) (n : Z) :
  is_label_definition (Register := Register) name (label_line name n) = true.
Proof. simpl. rewrite !bool_decide_eq_true_2; reflexivity. Qed.

Lemma parse_line_advances_ip (line : list Tok) (vars : Vars) :
  line <> [] -> ends_with_colon line = false ->
  Locals.ip (fst (parse_line int_of_str line vars)) = Locals.ip vars + 32.
Proof.
  intros Hne Hcolon. destruct line as [|first rest]; [congruence|].
  unfold parse_line. run. simpl in Hcolon. rewrite Hcolon.
  repeat (case_match; simplify_eq/=; try reflexivity).
Qed.

Lemma parse_line_instruction (first : Tok) (rest : list Tok) (i : InstructionEnum.t)
    (vars : Vars) :
  Token.type first = INSTRUCTION -> Token.value first = VInstruction i ->
  ends_with_colon (first :: rest) = false ->
  parse_line int_of_str (first :: rest) vars
  = let vars' := after_arity_check i (comma_split rest) (Token.line first) vars in
    match parse_args int_of_str (InstructionEnum.value i) (comma_split rest) with
    | Return args => (append_instruction (Instruction.mk i args) vars', Return tt)
    | Raise_ParseError e => (vars', Raise_ParseError e)
    | Raise e => (vars', Raise e)
    end.
Proof.
  intros Hty Hval Hcolon. unfold parse_line, after_arity_check. run.
  simpl in Hcolon. rewrite Hcolon, Hty, Hval. simpl.
  destruct (negb _); simpl; destruct (parse_args _ _ _); reflexivity.
Qed.

Lemma parse_lines_app (pre post : list (list Tok)) (vars : Vars) :
  parse_lines int_of_str (pre ++ post) vars
  = (parse_lines int_of_str pre ;;* parse_lines int_of_str post) vars.
Proof.
  revert vars. induction pre as [|line pre IH]; intros vars; simpl.
  - run. reflexivity.
  - unfold then_ in *.
    destruct (parse_line int_of_str line vars) as [vars' [[]|e|e]]; try reflexivity.
    apply IH.
Qed.

(** A prefix that raises ends the loop, with the locals as they were then. *)
Lemma parse_lines_app_raise (pre post : list (list Tok)) (vars vars' : Vars)
    (r : Result Register unit) :
  parse_lines int_of_str pre vars = (vars', r) -> r <> Return tt ->
  parse_lines int_of_str (pre ++ post) vars = (vars', r).
Proof.
  intros Hpre Hr. rewrite parse_lines_app. unfold then_. rewrite Hpre.
  destruct r as [[]|e|e]; congruence.
Qed.

Lemma parse_lines_app_return (pre post : list (list Tok)) (vars vars' : Vars) :
  parse_lines int_of_str pre vars = (vars', Return tt) ->
  parse_lines int_of_str (pre ++ post) vars = parse_lines int_of_str post vars'.
Proof. intros Hpre. rewrite parse_lines_app. unfold then_. rewrite Hpre. reflexivity. Qed.

(** A loop that completes has completed on every prefix. *)
Lemma parse_lines_app_inv (pre post : list (list Tok)) (vars vars' : Vars) :
  parse_lines int_of_str (pre ++ post) vars = (vars', Return tt) ->
  exists mid, parse_lines int_of_str pre vars = (mid, Return tt) /\
              parse_lines int_of_str post mid = (vars', Return tt).
Proof.
  rewrite parse_lines_app. unfold then_.
  destruct (parse_lines int_of_str pre vars) as [mid [[]|e|e]]; try discriminate.
  eauto.
Qed.

(** [errors] only grows: no statement of the loop removes an entry. *)
Lemma parse_line_errors (line : list Tok) (vars : Vars) :
  exists more,
    Locals.errors (fst (parse_line int_of_str line vars)) = Locals.errors vars ++ more.
Proof.
  unfold parse_line. run.
  repeat (case_match; simplify_eq/=);
    first [ by exists []; rewrite app_nil_r | by eexists ].
Qed.

Lemma parse_lines_errors (tokens : list (list Tok)) (vars : Vars) :
  exists more,
    Locals.errors (fst (parse_lines int_of_str tokens vars)) = Locals.errors vars ++ more.
Proof.
  revert vars. induction tokens as [|line tokens IH]; intros vars; simpl.
  - exists []. by rewrite app_nil_r.
  - unfold then_. destruct (parse_line_errors line vars) as [more1 H1].
    destruct (parse_line int_of_str line vars) as [vars' [[]|e|e]]; simpl in *;
      try by eexists.
    destruct (IH vars') as [more2 H2]. exists (more1 ++ more2).
    by rewrite H2, H1, app_assoc.
Qed.

(** What [parse] returns, from how the loop ends. *)
Lemma parse_unfold (tokens : list (list Tok)) :
  parse int_of_str tokens
  = match parse_lines int_of_str tokens initial with
    | (vars, Return _) =>
        match Locals.errors vars with
        | [] => Return (InstructionsNT.mk (Locals.instructions vars)
                          (Locals.symbol_table vars))
        | _ :: _ => collect_errors (Locals.errors vars)
        end
    | (_, Raise_ParseError e) => Raise_ParseError e
    | (_, Raise e) => Raise e
    end.
Proof.
  unfold parse, finish. unfold then_ at 1.
  destruct (parse_lines int_of_str tokens initial) as [vars [[]|e|e]]; try reflexivity.
  run. destruct (Locals.errors vars); reflexivity.
Qed.

(** All or nothing. As soon as the locals after some prefix of the file hold
    a queued error or a line of that prefix has raised, [parse] returns no
    result for the file: no instruction and no symbol-table entry reaches the
    caller. When the loop has run over the whole file, what is raised is the
    one aggregate of the queued errors. *)
Lemma parse_all_or_nothing (tokens pre post : list (list Tok)) (vars : Vars)
    (r : Result Register unit) :
  tokens = pre ++ post ->
  parse_lines int_of_str pre initial = (vars, r) ->
  Locals.errors vars <> [] \/ r <> Return tt ->
  (forall result, parse int_of_str tokens <> Return result) /\
  (r = Return tt -> post = [] ->
   parse int_of_str tokens = collect_errors (Locals.errors vars)).
Proof.
  intros -> Hpre Hrec. split.
  - intros result. rewrite parse_unfold.
    assert (r = Return tt \/ r <> Return tt) as [->|Hr]
      by (destruct r as [[]|e|e]; auto + (right; discriminate)).
    + destruct Hrec as [Herr|]; [|congruence].
      rewrite (parse_lines_app_return _ _ _ _ Hpre).
      destruct (parse_lines_errors post vars) as [more Hmore].
      destruct (parse_lines int_of_str post vars) as [vars' [[]|e|e]];
        simpl in *; try discriminate.
      destruct (Locals.errors vars') eqn:E; [|discriminate].
      symmetry in Hmore. apply app_eq_nil in Hmore as [? _]. congruence.
    + rewrite (parse_lines_app_raise _ _ _ _ _ Hpre Hr).
      destruct r as [[]|e|e]; congruence.
  - intros -> ->. destruct Hrec as [Herr|]; [|congruence].
    rewrite app_nil_r, parse_unfold, Hpre.
    destruct (Locals.errors vars); congruence.
Qed.

(** C4. A file on which an error is recorded and which does not end in the
    one aggregate failure. [ADD R1, R2] on line 1 has two operands for an
    opcode of arity 3: its arity error is queued. With [NOT ,] on line 2,
    [parse] is left by the [IndexError] of the empty group; with [NOT 5] on
    line 2, by the [ParseError] of the dispatcher, which holds the operand
    error of line 2 and not the error queued for line 1. In both cases no
    result is returned, and what is raised is not the aggregate of the
    errors recorded. *)
Theorem C4_recorded_error_not_raised :
  let first_line : list (Token.t SampleRegister) :=
    [ instruction_token ADD "ADD" 1; register_token R1 "R1" 1;
      syntax_token Syntax_comma "," 1; register_token R2 "R2" 1 ] in
  Locals.errors (fst (parse_lines int_of_str [first_line] initial))
  = [[(Opcode_takes_arguments "ADD" 3 2, 1)]] /\
  parse int_of_str
    [ first_line;
      [ instruction_token NOT "NOT" 2; syntax_token Syntax_comma "," 2 ] ]
  = Raise IndexError /\
  parse int_of_str
    [ first_line; [ instruction_token NOT "NOT" 2; uint_token 5 "5" 2 ] ]
  = Raise_ParseError [(Token_instead_of "5" [REGISTER], 2)].
Proof. intros first_line. split; [|split]; reflexivity. Qed.

(** C5. A label definition records [ip + 1]: whatever the locals are, the
    line sets [symbol_table[name]] to the instruction pointer plus one. A file
    made of one well-formed instruction line followed by the definition of a
    label is parsed, and the symbol table it returns maps the label to 33. *)
Theorem C5_label_address (vars : Vars) (name : string) (label : list Tok)
    (first : Tok) (operands : list Tok) (i : InstructionEnum.t)
    (args : list (InstructionArg Register)) :
  is_label_definition name label = true ->
  Token.type first = INSTRUCTION -> Token.value first = VInstruction i ->
  ends_with_colon (first :: operands) = false ->
  length (comma_split operands) = length (InstructionEnum.value i) ->
  parse_args int_of_str (InstructionEnum.value i) (comma_split operands) = Return args ->
  parse_line int_of_str label vars
  = (set_symbol name (Locals.ip vars + 1) vars, Return tt) /\
  exists result,
    parse int_of_str [first :: operands; label] = Return result /\
    InstructionsNT.symbol_table result !! name = Some 33 /\
    InstructionsNT.instructions result = [Instruction.mk i args].
Proof.
  intros Hlabel Hty Hval Hcolon Harity Hargs. split.
  - by apply parse_line_label.
  - rewrite parse_unfold. simpl. unfold then_ at 1.
    rewrite (parse_line_instruction _ _ i) by assumption.
    unfold after_arity_check. rewrite Hargs, Harity, Nat.eqb_refl. simpl.
    unfold then_. rewrite (parse_line_label name) by assumption. run.
    eexists. split; [reflexivity|]. simpl. split; [|reflexivity].
    apply lookup_insert_eq.
Qed.

(** An instruction line advances the instruction pointer by 32 before
    anything else is done with it: whatever becomes of the line (it is
    parsed, it has the wrong number of operands, its operands are refused or
    it raises), the locals it leaves have [ip] advanced by exactly 32. When
    the line completes and the loop goes on to a label definition, the
    address recorded there includes the advance. *)
Lemma parse_line_ip_advanced_first (line label : list Tok) (name : string) (vars : Vars) :
  line <> [] -> ends_with_colon line = false ->
  is_label_definition name label = true ->
  Locals.ip (fst (parse_line int_of_str line vars)) = Locals.ip vars + 32 /\
  (snd (parse_line int_of_str line vars) = Return tt ->
   exists vars',
     parse_lines int_of_str [line; label] vars = (vars', Return tt) /\
     Locals.ip vars' = Locals.ip vars + 32 /\
     Locals.symbol_table vars' !! name = Some (Locals.ip vars + 32 + 1)).
Proof.
  intros Hne Hcolon Hlabel.
  pose proof (parse_line_advances_ip line vars Hne Hcolon) as Hip.
  split; [exact Hip|]. intros Hret. simpl. unfold then_.
  destruct (parse_line int_of_str line vars) as [vars1 r]. simpl in *. subst r.
  rewrite (parse_line_label name) by assumption. run.
  eexists. split; [reflexivity|]. simpl. split; [exact Hip|].
  rewrite Hip. apply lookup_insert_eq.
Qed.

(** C6. A malformed instruction after which no label is recorded. [NOT 5] on
    line 1 has an operand the dispatcher refuses: the instruction pointer has
    been advanced to 32 when the line raises, but the [ParseError] leaves the
    loop there, so the definition of [after] on line 2 is never read and the
    symbol table has no address for it. *)
Theorem C6_no_label_after_operand_error :
  let tokens : list (list (Token.t SampleRegister)) :=
    [ [ instruction_token NOT "NOT" 1; uint_token 5 "5" 1 ];
      label_line "after" 2 ] in
  Locals.ip (fst (parse_lines int_of_str tokens initial)) = 32 /\
  Locals.symbol_table (fst (parse_lines int_of_str tokens initial)) !! "after" = None /\
  snd (parse_lines int_of_str tokens initial)
  = Raise_ParseError [(Token_instead_of "5" [REGISTER], 1)] /\
  parse int_of_str tokens = Raise_ParseError [(Token_instead_of "5" [REGISTER], 1)].
Proof. intros tokens. repeat split. Qed.

(** *** The symbol table along the loop *)






(** *** The dispatcher inside the loop *)

(** A [ParseError] of the dispatcher is not caught by [parse]: it ends the
    loop at that line, whatever was queued before and whatever follows. *)
Lemma parse_dispatcher_failure_aborts (pre post : list (list Tok)) (line : list Tok)
    (vars : Vars) (e : ErrorText Register) :
  parse_lines int_of_str pre initial = (vars, Return tt) ->
  snd (parse_line int_of_str line vars) = Raise_ParseError e ->
  parse int_of_str (pre ++ line :: post) = Raise_ParseError e.
Proof.
  intros Hpre Hline. rewrite parse_unfold, (parse_lines_app_return _ _ _ _ Hpre).
  simpl. unfold then_.
  destruct (parse_line int_of_str line vars) as [vars' r]. simpl in Hline.
  subst r. reflexivity.
Qed.

(** A line with the wrong number of operand groups whose operands the
    dispatcher refuses: the arity error is in [errors] when the line raises,
    and what the line raises is the dispatcher's error. *)
Lemma parse_line_arity_then_operand_failure (first : Tok) (rest : list Tok)
    (i : InstructionEnum.t) (vars : Vars) (e : ErrorText Register) :
  Token.type first = INSTRUCTION -> Token.value first = VInstruction i ->
  ends_with_colon (first :: rest) = false ->
  length (comma_split rest) <> length (InstructionEnum.value i) ->
  parse_args int_of_str (InstructionEnum.value i) (comma_split rest) = Raise_ParseError e ->
  parse_line int_of_str (first :: rest) vars
  = (append_error
       (format_error
          (Opcode_takes_arguments (InstructionEnum.name i)
             (length (InstructionEnum.value i)) (length (comma_split rest)))
          (Token.line first))
       (add_ip 32 vars),
     Raise_ParseError e).
Proof.
  intros Hty Hval Hcolon Harity Hargs.
  rewrite (parse_line_instruction _ _ i) by assumption.
  unfold after_arity_check. rewrite Hargs.
  apply Nat.eqb_neq in Harity. by rewrite Harity.
Qed.

(** C1. Two lines, each with a malformed operand ([NOT 5] on line 1 and
    [NOT 7] on line 2): the failure of the dispatcher on line 1 leaves
    [parse] at once, and what is raised holds the entry of line 1 only. *)
Theorem C1_second_malformed_line_not_reported :
  parse (Register := Register) int_of_str
    [ [instruction_token NOT "NOT" 1; uint_token 5 "5" 1];
      [instruction_token NOT "NOT" 2; uint_token 7 "7" 2] ]
  = Raise_ParseError [(Token_instead_of "5" [REGISTER], 1)].
Proof. reflexivity. Qed.

(** C2. [MOV 5, R1, R2] on line 3: three operand groups for an opcode of
    arity 2, the first of them malformed. The arity error is queued in
    [errors] and the dispatcher still runs, but the [ParseError] it raises
    for the operand leaves [parse] with the operand error alone: the queued
    arity error is not part of the failure. *)
Theorem C2_arity_error_lost :
  Locals.errors
    (fst (parse_line int_of_str
            [ instruction_token MOV "MOV" 3; uint_token 5 "5" 3;
              syntax_token Syntax_comma "," 3; register_token R1 "R1" 3;
              syntax_token Syntax_comma "," 3; register_token R2 "R2" 3 ]
            initial))
  = [[(Opcode_takes_arguments "MOV" 2 3, 3)]] /\
  parse (Register := SampleRegister) int_of_str
    [ [ instruction_token MOV "MOV" 3; uint_token 5 "5" 3;
        syntax_token Syntax_comma "," 3; register_token R1 "R1" 3;
        syntax_token Syntax_comma "," 3; register_token R2 "R2" 3 ] ]
  = Raise_ParseError [(Token_instead_of "5" [REGISTER], 3)].
Proof. split; reflexivity. Qed.

(** C3. An instruction token followed by a single comma: [comma_split] gives
    one empty group, and for an opcode whose first position has a class to
    try, the dispatcher evaluates [arg[0].line] on that empty group. The
    [IndexError] is not a [ParseError]; it leaves [parse_args] and [parse]
    uncaught. *)
Theorem C3_empty_group_index_error (i : InstructionEnum.t) (first comma : Tok)
    (position : ArgSpec) (rest : list ArgSpec) :
  Token.type first = INSTRUCTION -> Token.value first = VInstruction i ->
  is_comma comma = true ->
  InstructionEnum.value i = position :: rest -> as_tuple position <> [] ->
  comma_split [comma] = [[]] /\
  parse_args (Register := Register) int_of_str (InstructionEnum.value i) [[]]
  = Raise IndexError /\
  parse int_of_str [[first; comma]] = Raise IndexError /\
  (forall e, parse int_of_str [[first; comma]] <> Raise_ParseError e).
Proof.
  intros Hty Hval Hcomma Hsig Halt.
  assert (Hsplit : comma_split [comma] = [[]])
    by (unfold comma_split; simpl; by rewrite Hcomma).
  assert (Hargs : parse_args (Register := Register) int_of_str (InstructionEnum.value i) [[]]
  = Raise IndexError).
  { unfold parse_args. rewrite Hsig. simpl.
    destruct (as_tuple position) as [|arg_type arg_types]; [congruence|].
    reflexivity. }
  assert (Hparse : parse int_of_str [[first; comma]] = Raise IndexError).
  { rewrite parse_unfold. simpl. unfold then_.
    rewrite (parse_line_instruction _ _ i); try assumption.
    - rewrite Hsplit, Hargs. reflexivity.
    - simpl. unfold is_comma in Hcomma. unfold value_is.
      destruct (Token.type comma); try discriminate.
      destruct (Token.value comma) as [| | | |[]]; try discriminate; reflexivity. }
  repeat split; try assumption. intros e. rewrite Hparse. discriminate.
Qed.

(** *** Operand parsers *)

Lemma token_type_check_ok (token : Tok) (token_types : list TokenType) (line : Z) :
  Token.type token ∈ token_types ->
  token_type_check token token_types line = Return token.
Proof. intros Hin. unfold token_type_check. by rewrite decide_True. Qed.

Lemma token_type_check_fails (token : Tok) (token_types : list TokenType) (line : Z) :
  Token.type token ∉ token_types ->
  token_type_check token token_types line
  = ParseError (Token_instead_of (Token.text token) token_types) line.
Proof. intros Hin. unfold token_type_check. by rewrite decide_False. Qed.

Lemma construct_in_range (cls : NumType) (token : Tok) (v : Z) :
  numeric_value int_of_str token = Some v -> 0 <= v <= MAX cls ->
  construct int_of_str cls (Token.value token)
  = Constructed {| num_type := cls; num := v |}.
Proof.
  unfold numeric_value, construct. intros Hv [Hlo Hhi].
  apply Z.leb_le in Hlo. apply Z.leb_le in Hhi.
  destruct (Token.value token); simplify_eq/=; by rewrite Hlo, Hhi.
Qed.

Lemma construct_overflow (cls : NumType) (raw : TokenValue Register) (v : Z) :
  raw = VInt v -> MAX cls < v ->
  construct int_of_str cls raw = OverflowError_.
Proof.
  intros -> Hv. unfold construct.
  replace (v <=? MAX cls) with false by (symmetry; apply Z.leb_gt; lia).
  by rewrite andb_false_r.
Qed.

(** An immediate given as one UINT or STRING token carrying the number [v]:
    for [0 <= v <= MAX = 2^width - 1] the parser returns exactly [v] as a
    number of that class; for [v = MAX + 1], when the payload of the token is
    an integer, it raises the error that reports the value, the maximum and
    the text of the token. *)
Lemma immediate_bounds (cls : NumType) (token : Tok) (line v : Z) :
  Token.type token = UINT \/ Token.type token = STRING ->
  numeric_value int_of_str token = Some v ->
  MAX cls = 2 ^ bits cls - 1 /\
  (0 <= v <= MAX cls ->
   parse_number int_of_str cls [token] line = Return {| num_type := cls; num := v |}) /\
  (v = MAX cls + 1 -> Token.value token = VInt v ->
   parse_number int_of_str cls [token] line
   = ParseError (Number_too_large v (MAX cls) (Token.text token)) line).
Proof.
  intros Hty Hv. split; [reflexivity|].
  assert (Hcheck : token_type_check token [UINT; STRING] line = Return token).
  { apply token_type_check_ok. destruct Hty as [-> | ->]; set_solver. }
  unfold parse_number, extact_token, extract_token_num. simpl. rewrite Hcheck. simpl.
  split.
  - intros Hrange. by rewrite (construct_in_range cls token v).
  - intros -> Hint. rewrite (construct_overflow cls _ (MAX cls + 1)) by (auto; lia).
    by rewrite Hint.
Qed.

Lemma parse_Register_token (r : Register) (token : Tok) (line : Z) :
  Token.type token = REGISTER -> Token.value token = VRegister r ->
  Register_parse token line = Return r.
Proof.
  intros Hty Hval. unfold Register_parse, parse_Register, extact_token. simpl.
  rewrite token_type_check_ok by (rewrite Hty; set_solver). simpl.
  by rewrite Hval.
Qed.

(** C10. A shift operand made of one register token [R] parses to the
    shift [<<] of [R] by 0. A slice that starts with a register token and
    whose second token has a value that is neither [>>] nor [<<] is refused
    with the invalid-operator error naming that token. *)
Theorem C10_shift_default_and_operator (r : Register) (first second : Tok)
    (rest : list Tok) (line : Z) :
  Token.type first = REGISTER -> Token.value first = VRegister r ->
  is_shift_operator (Token.value second) = false ->
  parse_Shift int_of_str [first] line
  = Return (mkShift ShiftType_shl r {| num_type := Uint5; num := 0 |}) /\
  parse_Shift int_of_str (first :: second :: rest) line
  = ParseError (Invalid_operator (Token.text second)) line.
Proof.
  intros Hty Hval Hop. unfold parse_Shift. simpl.
  rewrite (parse_Register_token r) by assumption. simpl.
  rewrite Hop. split; reflexivity.
Qed.

(** [tokens[3:-1]] of a bracketed slice with a register, a sign and an
    increment is the increment. *)
Lemma increment_tokens_bracketed (a b c close : Tok) (inc : list Tok) :
  increment_tokens (a :: b :: c :: inc ++ [close]) = inc.
Proof. unfold increment_tokens. simpl. apply removelast_last. Qed.

Lemma index_last_bracketed (a close : Tok) (inner : list Tok) :
  index_last (Register := Register) (a :: inner ++ [close]) = Return close.
Proof. unfold index_last. by rewrite last_last. Qed.

(** C9. The pointer-dereference parser on the three examples: [[R1]] gives
    the register with increment 0, [[R1 + 5]] the increment 5 and
    [[R1 + R2 << 3]] the shift of R2 by 3 to the left. In general the tokens
    between [+] and []] are tried as a 16-bit immediate first and as a
    shift second; the first that parses is the increment, and the
    invalid-increment error is raised only when both are refused. *)
Theorem C9_pointer_dereference (r1 r2 : Register) (line : Z) (inc : list Tok) :
  let lbracket : Tok := syntax_token Syntax_lbracket "[" line in
  let rbracket : Tok := syntax_token Syntax_rbracket "]" line in
  let plus : Tok := syntax_token Syntax_plus "+" line in
  let shl : Tok := syntax_token Syntax_shl "<<" line in
  let reg1 : Tok := register_token r1 "R1" line in
  let reg2 : Tok := register_token r2 "R2" line in
  parse_PointerDeref int_of_str [lbracket; reg1; rbracket] line
  = Return (mkPointerDeref r1 (IncrementNumber {| num_type := Uint16; num := 0 |})) /\
  parse_PointerDeref int_of_str
    [lbracket; reg1; plus; uint_token 5 "5" line; rbracket] line
  = Return (mkPointerDeref r1 (IncrementNumber {| num_type := Uint16; num := 5 |})) /\
  parse_PointerDeref int_of_str
    [lbracket; reg1; plus; reg2; shl; uint_token 3 "3" line; rbracket] line
  = Return (mkPointerDeref r1
              (IncrementShift
                 (mkShift ShiftType_shl r2 {| num_type := Uint5; num := 3 |}))) /\
  parse_PointerDeref int_of_str (lbracket :: reg1 :: plus :: inc ++ [rbracket]) line
  = match parse_Uint16 int_of_str inc line with
    | Return n => Return (mkPointerDeref r1 (IncrementNumber n))
    | Raise_ParseError _ =>
        match parse_Shift int_of_str inc line with
        | Return s => Return (mkPointerDeref r1 (IncrementShift s))
        | Raise_ParseError _ =>
            ParseError
              (Increment_is_invalid (String.concat "" (map Token.text inc))) line
        | Raise e => Raise e
        end
    | Raise e => Raise e
    end.
Proof.
  intros. repeat split; try reflexivity.
  unfold parse_PointerDeref.
  change (lbracket :: reg1 :: plus :: inc ++ [rbracket])
    with (lbracket :: (reg1 :: plus :: inc) ++ [rbracket]) at 3.
  rewrite index_last_bracketed, increment_tokens_bracketed.
  assert (Hlen : (3 <? length (lbracket :: reg1 :: plus :: inc ++ [rbracket]))%nat = true).
  { apply Nat.ltb_lt. simpl. rewrite length_app. simpl. lia. }
  rewrite Hlen. simpl.
  destruct (parse_Uint16 int_of_str inc line) as [n|e|e]; simpl; try reflexivity.
  destruct (parse_Shift int_of_str inc line) as [sh|e'|e']; reflexivity.
Qed.

End Properties.

(** ** Concrete cases *)

(** C3 on [NOT ,]. *)
Lemma C3_comma_after_opcode :
  let first := instruction_token (Register := SampleRegister) NOT "NOT" 1 in
  let comma := syntax_token (Register := SampleRegister) Syntax_comma "," 1 in
  comma_split [comma] = [[]] /\
  parse_args (Register := SampleRegister) decimal (InstructionEnum.value NOT) [[]]
  = Raise IndexError /\
  parse decimal [[first; comma]] = Raise IndexError /\
  (forall e, parse decimal [[first; comma]] <> Raise_ParseError e).
Proof.
  intros first comma.
  apply (C3_empty_group_index_error decimal NOT first comma (Single Register_t) []);
    try reflexivity.
  simpl. discriminate.
Defined.

(** A file of three lines whose first line, [ADD R1, R2], has two operands
    for an opcode of arity 3: the loop runs to the end of the file, nothing
    is returned, and the aggregate holding the arity error is raised. *)
Lemma arity_error_file_has_no_result :
  let tokens : list (list (Token.t SampleRegister)) :=
    [ [ instruction_token ADD "ADD" 1; register_token R1 "R1" 1;
        syntax_token Syntax_comma "," 1; register_token R2 "R2" 1 ];
      label_line "loop" 2;
      [ instruction_token NOT "NOT" 3; register_token R3 "R3" 3 ] ] in
  (forall result, parse decimal tokens <> Return result) /\
  parse decimal tokens = Raise_ParseError [(Opcode_takes_arguments "ADD" 3 2, 1)].
Proof.
  intros tokens.
  edestruct (parse_all_or_nothing decimal tokens tokens []) as [Hnone Haggregate].
  - reflexivity.
  - reflexivity.
  - left. simpl. discriminate.
  - split; [exact Hnone | exact (Haggregate eq_refl eq_refl)].
Defined.

(** C5 on [ADD R1, R2, R3] followed by [loop:]. *)
Lemma C5_loop_is_33 :
  let instruction : list (Token.t SampleRegister) :=
    [ instruction_token ADD "ADD" 1; register_token R1 "R1" 1;
      syntax_token Syntax_comma "," 1; register_token R2 "R2" 1;
      syntax_token Syntax_comma "," 1; register_token R3 "R3" 1 ] in
  parse_line (Register := SampleRegister) decimal (label_line "loop" 2) initial
  = (set_symbol "loop" 1 initial, Return tt) /\
  exists result,
    parse decimal [instruction; label_line "loop" 2] = Return result /\
    InstructionsNT.symbol_table result !! "loop" = Some 33 /\
    InstructionsNT.instructions result
    = [Instruction.mk ADD [ArgRegister R1; ArgRegister R2; ArgRegister R3]].
Proof.
  intros instruction.
  apply (C5_label_address decimal initial "loop" (label_line "loop" 2)
           (instruction_token ADD "ADD" 1) (tail instruction) ADD
           [ArgRegister R1; ArgRegister R2; ArgRegister R3]);
    reflexivity.
Defined.

(** The line [ADD R1, R2], which has an arity error, followed by [after:],
    from the initial locals: the label gets 33. *)
Lemma arity_error_line_consumes_32 :
  let line : list (Token.t SampleRegister) :=
    [ instruction_token ADD "ADD" 1; register_token R1 "R1" 1;
      syntax_token Syntax_comma "," 1; register_token R2 "R2" 1 ] in
  Locals.errors (fst (parse_line decimal line initial)) <> [] /\
  Locals.ip (fst (parse_line decimal line initial)) = 32 /\
  exists vars',
    parse_lines decimal [line; label_line "after" 2] initial = (vars', Return tt) /\
    Locals.ip vars' = 32 /\
    Locals.symbol_table vars' !! "after" = Some 33.
Proof.
  intros line.
  destruct (parse_line_ip_advanced_first decimal line (label_line "after" 2) "after" initial)
    as [Hip Hlabel]; [discriminate | reflexivity | reflexivity |].
  split; [simpl; discriminate|]. split; [exact Hip|]. exact (Hlabel eq_refl).
Defined.


(** The 16-bit immediates 65535 (as a number and as a string) and 65536 (as
    a number). *)
Lemma uint16_bounds :
  parse_number (Register := SampleRegister) decimal Uint16
    [uint_token 65535 "65535" 1] 1
  = Return {| num_type := Uint16; num := 65535 |} /\
  parse_number (Register := SampleRegister) decimal Uint16
    [string_token "65535" "'65535'" 1] 1
  = Return {| num_type := Uint16; num := 65535 |} /\
  parse_number (Register := SampleRegister) decimal Uint16
    [uint_token 65536 "65536" 1] 1
  = ParseError (Number_too_large 65536 65535 "65536") 1.
Proof.
  split; [|split].
  - apply (immediate_bounds decimal Uint16 (uint_token 65535 "65535" 1) 1 65535);
      [left; reflexivity | reflexivity | vm_compute; split; discriminate].
  - apply (immediate_bounds decimal Uint16 (string_token "65535" "'65535'" 1) 1 65535);
      [right; reflexivity | reflexivity | vm_compute; split; discriminate].
  - apply (immediate_bounds decimal Uint16 (uint_token 65536 "65536" 1) 1 65536);
      [left; reflexivity | reflexivity | reflexivity | reflexivity].
Defined.

(** C8. A STRING token at [MAX + 1]: the string "65536" carries [MAX + 1]
    for 16 bits, and the parse of the immediate ends in the assertion of the
    overflow handler on the payload, not in the [ParseError] that reports
    the value, the maximum and the text of the token. *)
Lemma C8_string_overflow_not_reported :
  let token := string_token (Register := SampleRegister) "65536" "'65536'" 1 in
  Token.type token = STRING /\
  numeric_value decimal token = Some (MAX Uint16 + 1) /\
  parse_number decimal Uint16 [token] 1 = Raise AssertionError /\
  parse_number decimal Uint16 [token] 1
  <> ParseError (Number_too_large 65536 (MAX Uint16) (Token.text token)) 1.
Proof. repeat split. discriminate. Qed.

(** C10 on [R2] alone and on [R2 + 3]. *)
Lemma C10_register_then_plus :
  parse_Shift decimal [register_token R2 "R2" 1] 1
  = Return (mkShift ShiftType_shl R2 {| num_type := Uint5; num := 0 |}) /\
  parse_Shift decimal
    [register_token R2 "R2" 1; syntax_token Syntax_plus "+" 1; uint_token 3 "3" 1] 1
  = ParseError (Invalid_operator "+") 1.
Proof.
  apply (C10_shift_default_and_operator decimal R2 (register_token R2 "R2" 1)
           (syntax_token Syntax_plus "+" 1) [uint_token 3 "3" 1] 1);
    reflexivity.
Defined.

(** C10 fails on a slice that does not start with a register: in [5 + 3]
    the second token is neither [<<] nor [>>], and the error is the one of
    the register parser about the first token, not the invalid-operator
    error. *)
Lemma C10_first_token_checked_first :
  let second := syntax_token (Register := SampleRegister) Syntax_plus "+" 1 in
  is_shift_operator (Token.value second) = false /\
  parse_Shift decimal [uint_token 5 "5" 1; second; uint_token 3 "3" 1] 1
  = ParseError (Token_instead_of "5" [REGISTER]) 1 /\
  parse_Shift decimal [uint_token 5 "5" 1; second; uint_token 3 "3" 1] 1
  <> ParseError (Invalid_operator (Token.text second)) 1.
Proof. repeat split. discriminate. Qed.


(** ** Further properties of the module *)

Section CommaSplit.
Context {Register : Type}.

Local Abbreviation Tok := (Token.t Register).

(** *** comma_split *)

Lemma comma_split_from_concat (current_tokens tokens : list Tok) :
  concat (comma_split_from current_tokens tokens) = current_tokens ++ operands tokens.
Proof.
  revert current_tokens.
  induction tokens as [|token tokens IH]; intros current_tokens; simpl.
  - destruct current_tokens; simpl; by rewrite ?app_nil_r.
  - unfold operands. simpl. destruct (is_comma token); simpl.
    + by rewrite IH.
    + rewrite IH. unfold operands. by rewrite <- app_assoc.
Qed.

Lemma comma_split_from_groups (current_tokens tokens : list Tok) :
  Forall (fun token => is_comma token = false) current_tokens ->
  Forall (Forall (fun token => is_comma token = false))
    (comma_split_from current_tokens tokens).
Proof.
  revert current_tokens.
  induction tokens as [|token tokens IH]; intros current_tokens Hcurrent; simpl.
  - destruct current_tokens; [constructor|]. by constructor.
  - destruct (is_comma token) eqn:Hcomma.
    + constructor; [assumption|]. by apply IH.
    + apply IH. apply Forall_app. split; [assumption|]. by constructor.
Qed.

(** X1. Splitting takes away the commas and nothing else: the groups, put
    end to end, are the tokens that are not commas, in their order, and no
    group holds a comma. *)
Theorem comma_split_keeps_operands (tokens : list Tok) :
  concat (comma_split tokens) = operands tokens /\
  Forall (Forall (fun token => is_comma token = false)) (comma_split tokens).
Proof.
  split.
  - apply comma_split_from_concat.
  - by apply comma_split_from_groups.
Qed.

Lemma comma_split_from_group (current_tokens group : list Tok) :
  Forall (fun token => is_comma token = false) group ->
  current_tokens ++ group <> [] ->
  comma_split_from current_tokens group = [current_tokens ++ group].
Proof.
  revert current_tokens.
  induction group as [|token group IH]; intros current_tokens Hgroup Hne; simpl.
  - rewrite app_nil_r in *. by destruct current_tokens.
  - inversion Hgroup as [|? ? Htoken Hrest]; subst. rewrite Htoken.
    rewrite IH; [by rewrite <- app_assoc|assumption|].
    rewrite <- app_assoc. simpl. by destruct current_tokens.
Qed.

Lemma comma_split_from_cons (current_tokens group rest : list Tok) (comma : Tok) :
  Forall (fun token => is_comma token = false) group -> is_comma comma = true ->
  comma_split_from current_tokens (group ++ comma :: rest)
  = (current_tokens ++ group) :: comma_split_from [] rest.
Proof.
  revert current_tokens.
  induction group as [|token group IH]; intros current_tokens Hgroup Hcomma; simpl.
  - by rewrite Hcomma, app_nil_r.
  - inversion Hgroup as [|? ? Htoken Hrest]; subst. rewrite Htoken.
    rewrite IH by assumption. by rewrite <- app_assoc.
Qed.

(** X2. How a list is cut. A group without commas followed by a comma is the
    first group, and the rest is split on its own; a non-empty list without
    commas is a single group. So what stands before a comma is a group even
    when it is empty. *)
Theorem comma_split_cons (group rest : list Tok) (comma : Tok) :
  Forall (fun token => is_comma token = false) group -> is_comma comma = true ->
  comma_split (group ++ comma :: rest) = group :: comma_split rest /\
  (group <> [] -> comma_split group = [group]).
Proof.
  intros Hgroup Hcomma. split.
  - apply (comma_split_from_cons [] group rest comma); assumption.
  - intros Hne. by apply (comma_split_from_group [] group).
Qed.

Lemma comma_split_from_length (current_tokens tokens : list Tok) :
  length (comma_split_from current_tokens tokens)
  = (length (commas tokens)
     + match last tokens with
       | Some token => if is_comma token then 0 else 1
       | None => match current_tokens with [] => 0 | _ :: _ => 1 end
       end)%nat.
Proof.
  revert current_tokens.
  induction tokens as [|token tokens IH]; intros current_tokens.
  - simpl. by destruct current_tokens.
  - change (commas (token :: tokens))
      with (if is_comma token then token :: commas tokens else commas tokens).
    rewrite last_cons. simpl comma_split_from.
    destruct (is_comma token) eqn:Hcomma; simpl length; rewrite IH.
    + destruct (last tokens); [reflexivity|]. by rewrite Hcomma.
    + destruct (last tokens); [reflexivity|]. rewrite Hcomma.
      by destruct current_tokens.
Qed.

(** X3. The number of groups, which [parse] compares with the arity of the
    opcode: one per comma, and one more when the list ends with a token that
    is not a comma. A comma at the end closes the last group and opens
    none. *)
Theorem comma_split_length (tokens : list Tok) :
  length (comma_split tokens)
  = (length (commas tokens) + if ends_in_operand tokens then 1 else 0)%nat.
Proof.
  unfold comma_split, ends_in_operand. rewrite comma_split_from_length.
  destruct (last tokens) as [token|]; [|reflexivity].
  by destruct (is_comma token).
Qed.

Lemma comma_split_from_snoc_comma (current_tokens tokens : list Tok) (comma : Tok) :
  is_comma comma = true ->
  comma_split_from current_tokens (tokens ++ [comma])
  = if match last tokens with
       | Some token => negb (is_comma token)
       | None => match current_tokens with [] => false | _ :: _ => true end
       end
    then comma_split_from current_tokens tokens
    else comma_split_from current_tokens tokens ++ [[]].
Proof.
  intros Hcomma. revert current_tokens.
  induction tokens as [|token tokens IH]; intros current_tokens.
  - simpl. rewrite Hcomma. by destruct current_tokens.
  - rewrite last_cons. simpl.
    destruct (is_comma token) eqn:Htoken; rewrite IH.
    + destruct (last tokens) as [final|]; [|by rewrite Htoken].
      by destruct (negb (is_comma final)).
    + destruct (last tokens) as [final|]; [reflexivity|]. rewrite Htoken. simpl.
      by destruct current_tokens.
Qed.

(** X4. A comma at the end. After an operand it is not seen: the groups are
    those of the list without it. After a comma, or alone, it adds an empty
    group. *)
Theorem comma_split_trailing_comma (tokens : list Tok) (comma : Tok) :
  is_comma comma = true ->
  comma_split (tokens ++ [comma])
  = if ends_in_operand tokens then comma_split tokens else comma_split tokens ++ [[]].
Proof.
  intros Hcomma. unfold comma_split, ends_in_operand.
  rewrite comma_split_from_snoc_comma by assumption.
  by destruct (last tokens).
Qed.

End CommaSplit.

Section OperandParsers.
Context {Register : Type}.
Variable int_of_str : string -> Z.

Local Abbreviation Tok := (Token.t Register).

(** *** The token checks *)

Lemma extact_token_Return (tokens : list Tok) (line : Z) (token : Tok) :
  extact_token tokens line = Return token <-> tokens = [token].
Proof.
  unfold extact_token, ParseError, index.
  destruct tokens as [|first [|second rest]]; simpl; split; intros H;
    by simplify_eq/=.
Qed.

Lemma token_type_check_Return (token token' : Tok) (token_types : list TokenType)
    (line : Z) :
  token_type_check token token_types line = Return token'
  <-> token' = token /\ Token.type token ∈ token_types.
Proof.
  unfold token_type_check. case_decide; split.
  - intros [= <-]. done.
  - intros [-> _]. done.
  - discriminate.
  - intros [_ ?]. done.
Qed.

Lemma parse_Register_Return (tokens : list Tok) (line : Z) (r : Register) :
  parse_Register tokens line = Return r
  <-> exists token,
        tokens = [token] /\ Token.type token = REGISTER /\
        Token.value token = VRegister r.
Proof.
  unfold parse_Register. split.
  - intros H.
    destruct (extact_token tokens line) as [one| |] eqn:Hone; try discriminate.
    apply extact_token_Return in Hone as ->. simpl in H.
    destruct (token_type_check one [REGISTER] line) as [token| |] eqn:Hcheck;
      try discriminate.
    apply token_type_check_Return in Hcheck as [-> Hty]. simpl in H.
    exists one. split; [reflexivity|].
    split; [by apply list_elem_of_singleton in Hty|].
    destruct (Token.value one); by simplify_eq.
  - intros (token & -> & Hty & Hval).
    assert (Hone : extact_token [token] line = Return token)
      by by apply extact_token_Return.
    rewrite Hone. simpl.
    assert (Hcheck : token_type_check token [REGISTER] line = Return token)
      by (apply token_type_check_Return; rewrite Hty; set_solver).
    rewrite Hcheck. simpl. by rewrite Hval.
Qed.

(** X5. [parse_Register] accepts exactly the slices made of one token of
    type REGISTER that carries a register, and returns that register. *)
Theorem parse_Register_accepts (tokens : list Tok) (line : Z) (r : Register) :
  parse_Register tokens line = Return r
  <-> exists token,
        tokens = [token] /\ Token.type token = REGISTER /\
        Token.value token = VRegister r.
Proof. apply parse_Register_Return. Qed.

(** *** The line of an operand error *)

Local Abbreviation at_line line r :=
  (forall e, r = Raise_ParseError e -> exists message, e = [(message, line)]).

Lemma bind_at_line {A B} (m : Result Register A) (k : A -> Result Register B)
    (line : Z) :
  at_line line m -> (forall a, at_line line (k a)) -> at_line line (bind m k).
Proof.
  intros Hm Hk e. destruct m as [a|e'|exc]; simpl.
  - apply Hk.
  - intros [= <-]. by apply Hm.
  - discriminate.
Qed.

Lemma ParseError_at_line {A} (message : Message Register) (line : Z) :
  at_line line (ParseError (A := A) message line).
Proof. intros e [= <-]. by eexists. Qed.

Lemma Return_at_line {A} (a : A) (line : Z) : at_line line (Return (Register := Register) a).
Proof. intros e. discriminate. Qed.

Lemma Raise_at_line {A} (exc : PyException) (line : Z) :
  at_line line (Raise (Register := Register) (A := A) exc).
Proof. intros e. discriminate. Qed.

Lemma index_at_line {A} (seq : list A) (i : nat) (line : Z) :
  at_line line (index (Register := Register) seq i).
Proof. unfold index. intros e. by destruct (nth_error seq i). Qed.

Lemma index_last_at_line {A} (seq : list A) (line : Z) :
  at_line line (index_last (Register := Register) seq).
Proof. unfold index_last. intros e. by destruct seq. Qed.

Lemma empty_token_check_at_line (tokens : list Tok) (line : Z) :
  at_line line (empty_token_check tokens line).
Proof.
  unfold empty_token_check. destruct tokens;
    [apply ParseError_at_line | apply Return_at_line].
Qed.

Lemma extact_token_at_line (tokens : list Tok) (line : Z) :
  at_line line (extact_token tokens line).
Proof.
  unfold extact_token. apply bind_at_line; [apply empty_token_check_at_line|].
  intros _. case_match; [apply ParseError_at_line | apply index_at_line].
Qed.

Lemma token_type_check_at_line (token : Tok) (token_types : list TokenType) (line : Z) :
  at_line line (token_type_check token token_types line).
Proof.
  unfold token_type_check. case_decide;
    [apply Return_at_line | apply ParseError_at_line].
Qed.

Lemma extract_token_num_at_line (token : Tok) (cls : NumType) (line : Z) :
  at_line line (extract_token_num int_of_str token cls line).
Proof.
  unfold extract_token_num. apply bind_at_line; [apply token_type_check_at_line|].
  intros _. repeat case_match;
    first [apply Return_at_line | apply ParseError_at_line | apply Raise_at_line].
Qed.

Lemma parse_Register_at_line (tokens : list Tok) (line : Z) :
  at_line line (parse_Register tokens line).
Proof.
  unfold parse_Register. apply bind_at_line.
  - apply bind_at_line; [apply extact_token_at_line|].
    intros one. apply token_type_check_at_line.
  - intros token. case_match; first [apply Return_at_line | apply Raise_at_line].
Qed.

Lemma parse_number_at_line (cls : NumType) (tokens : list Tok) (line : Z) :
  at_line line (parse_number int_of_str cls tokens line).
Proof.
  unfold parse_number. apply bind_at_line; [apply extact_token_at_line|].
  intros one. apply extract_token_num_at_line.
Qed.

Lemma parse_Shift_at_line (tokens : list Tok) (line : Z) :
  at_line line (parse_Shift int_of_str tokens line).
Proof.
  unfold parse_Shift.
  apply bind_at_line; [apply empty_token_check_at_line|]. intros _.
  apply bind_at_line; [apply index_at_line|]. intros first.
  apply bind_at_line; [apply parse_Register_at_line|]. intros r.
  case_match; [apply Return_at_line|].
  apply bind_at_line; [apply index_at_line|]. intros second.
  case_match; [apply ParseError_at_line|].
  apply bind_at_line.
  { unfold ShiftType_of_name.
    repeat case_match; first [apply Return_at_line | apply Raise_at_line]. }
  intros shift_type.
  apply bind_at_line; [apply extact_token_at_line|]. intros one.
  apply bind_at_line; [apply extract_token_num_at_line|]. intros n.
  apply Return_at_line.
Qed.

Lemma exception_chain_at_line {A} (parsers : list (list Tok -> Z -> Result Register A))
    (message : Message Register) (tokens : list Tok) (line : Z) :
  at_line line (exception_chain parsers (format_error message line) tokens line).
Proof.
  induction parsers as [|parser parsers IH]; simpl.
  - intros e [= <-]. by eexists.
  - destruct (parser tokens line); [apply Return_at_line | apply IH | apply Raise_at_line].
Qed.

Lemma parse_PointerDeref_at_line (tokens : list Tok) (line : Z) :
  at_line line (parse_PointerDeref int_of_str tokens line).
Proof.
  unfold parse_PointerDeref.
  apply bind_at_line; [apply empty_token_check_at_line|]. intros _.
  apply bind_at_line; [apply index_at_line|]. intros first.
  apply bind_at_line; [apply index_last_at_line|]. intros final.
  case_match; [apply ParseError_at_line|].
  apply bind_at_line; [apply index_at_line|]. intros second.
  apply bind_at_line; [apply parse_Register_at_line|]. intros r.
  case_match; [|apply Return_at_line].
  apply bind_at_line; [apply index_at_line|]. intros third.
  case_match; [apply ParseError_at_line|].
  apply bind_at_line; [apply exception_chain_at_line|]. intros inc.
  apply Return_at_line.
Qed.

Lemma parse_arg_at_line (arg_type : ArgType) (tokens : list Tok) (line : Z) :
  at_line line (parse_arg int_of_str arg_type tokens line).
Proof.
  unfold parse_arg. destruct arg_type;
    (apply bind_at_line; [|intros ?; apply Return_at_line]).
  - apply parse_Register_at_line.
  - apply parse_PointerDeref_at_line.
  - apply parse_Shift_at_line.
  - apply parse_number_at_line.
  - apply parse_number_at_line.
Qed.

(** X6. An operand parser that refuses its slice raises one error entry, and
    the entry carries the line number the parser was called with, whatever
    the line numbers of the tokens are. *)
Theorem parse_arg_error_line (arg_type : ArgType) (tokens : list Tok) (line : Z)
    (e : ErrorText Register) :
  parse_arg int_of_str arg_type tokens line = Raise_ParseError e ->
  exists message, e = [(message, line)].
Proof. apply parse_arg_at_line. Qed.

(** *** The exceptions of the operand parsers *)

(** An exception that is not a [ParseError] is an [AssertionError] or a
    [TypeError], and a token of the slice is to blame: one whose payload
    does not go with its type, or a STRING token. *)
Local Abbreviation blames tokens r :=
  (forall exc, r = Raise exc ->
     (exc = AssertionError \/ exc = TypeError) /\
     exists token : Tok,
       token ∈ tokens /\ (well_typed token = false \/ Token.type token = STRING)).

Lemma blames_weaken {A} (tokens tokens' : list Tok) (r : Result Register A) :
  (forall token, token ∈ tokens -> token ∈ tokens') ->
  blames tokens r -> blames tokens' r.
Proof.
  intros Hsub Hr exc Hexc. destruct (Hr exc Hexc) as [Hkind (token & Hin & Hbad)].
  split; [assumption|]. exists token. auto.
Qed.

Lemma bind_blames {A B} (tokens : list Tok) (m : Result Register A)
    (k : A -> Result Register B) :
  blames tokens m -> (forall a, m = Return a -> blames tokens (k a)) ->
  blames tokens (bind m k).
Proof.
  intros Hm Hk exc. destruct m as [a|e|exc']; simpl.
  - by apply Hk.
  - discriminate.
  - intros [= <-]. by apply Hm.
Qed.

Lemma extact_token_no_raise (tokens : list Tok) (line : Z) (exc : PyException) :
  extact_token tokens line <> Raise exc.
Proof.
  unfold extact_token, ParseError, index.
  by destruct tokens as [|first [|second rest]].
Qed.

Lemma token_type_check_no_raise (token : Tok) (token_types : list TokenType) (line : Z)
    (exc : PyException) :
  token_type_check token token_types line <> Raise exc.
Proof. unfold token_type_check, ParseError. by case_decide. Qed.

Lemma extract_token_num_blames (token : Tok) (cls : NumType) (line : Z) :
  blames [token] (extract_token_num int_of_str token cls line).
Proof.
  unfold extract_token_num. intros exc.
  destruct (token_type_check token [UINT; STRING] line) as [checked| |] eqn:Hcheck;
    simpl; try discriminate.
  2: { intros H. by apply token_type_check_no_raise in Hcheck. }
  apply token_type_check_Return in Hcheck as [_ Hty].
  assert (Hty' : Token.type token = UINT \/ Token.type token = STRING).
  { apply elem_of_cons in Hty as [Hty|Hty]; [by left|].
    right. by apply list_elem_of_singleton in Hty. }
  clear Hty. intros Hexc.
  assert (Hbad : (exc = AssertionError \/ exc = TypeError) /\
                 (well_typed token = false \/ Token.type token = STRING)).
  { unfold well_typed, construct, ParseError in *.
    destruct Hty' as [Hty|Hty]; rewrite Hty;
      destruct (Token.value token); repeat case_match; simplify_eq/=; auto. }
  destruct Hbad as [Hkind Hbad]. split; [assumption|].
  exists token. split; [by apply list_elem_of_singleton|assumption].
Qed.

Lemma parse_Register_blames (tokens : list Tok) (line : Z) :
  blames tokens (parse_Register tokens line).
Proof.
  unfold parse_Register. intros exc.
  destruct (extact_token tokens line) as [one| |] eqn:Hone; simpl; try discriminate.
  2: { intros _. by apply extact_token_no_raise in Hone. }
  apply extact_token_Return in Hone as ->.
  destruct (token_type_check one [REGISTER] line) as [token| |] eqn:Hcheck;
    simpl; try discriminate.
  2: { intros _. by apply token_type_check_no_raise in Hcheck. }
  apply token_type_check_Return in Hcheck as [-> Hty].
  apply list_elem_of_singleton in Hty.
  intros Hexc. split.
  - destruct (Token.value one); simplify_eq; auto.
  - exists one. split; [by apply list_elem_of_singleton|].
    left. unfold well_typed. rewrite Hty.
    by destruct (Token.value one).
Qed.

Lemma parse_number_blames (cls : NumType) (tokens : list Tok) (line : Z) :
  blames tokens (parse_number int_of_str cls tokens line).
Proof.
  unfold parse_number. intros exc.
  destruct (extact_token tokens line) as [one| |] eqn:Hone; simpl; try discriminate.
  2: { intros _. by apply extact_token_no_raise in Hone. }
  apply extact_token_Return in Hone as ->. apply extract_token_num_blames.
Qed.

Lemma parse_Shift_blames (tokens : list Tok) (line : Z) :
  blames tokens (parse_Shift int_of_str tokens line).
Proof.
  unfold parse_Shift. destruct tokens as [|first rest]; [by intros exc|].
  simpl empty_token_check. simpl bind at 1. simpl index. simpl bind at 1.
  apply bind_blames.
  { apply (blames_weaken [first]); [|apply parse_Register_blames].
    intros token ->%list_elem_of_singleton. apply list_elem_of_here. }
  intros r _. destruct rest as [|second rest]; [by intros exc|].
  simpl. destruct (is_shift_operator (Token.value second)) eqn:Hop; simpl;
    [|by intros exc].
  apply bind_blames.
  { unfold ShiftType_of_name, is_shift_operator in *.
    intros exc. by repeat case_match. }
  intros shift_type _. unfold drop.
  apply (blames_weaken rest);
    [intros token Hin; by do 2 apply list_elem_of_further|].
  apply bind_blames.
  { intros exc Hexc. by apply extact_token_no_raise in Hexc. }
  intros one ->%extact_token_Return.
  apply bind_blames; [apply extract_token_num_blames|]. by intros n _ exc.
Qed.

Lemma value_is_true (token : Tok) (syntax : Syntax) :
  value_is token syntax = true <-> Token.value token = VSyntax syntax.
Proof.
  unfold value_is. split.
  - destruct (Token.value token) as [| | | |[]]; destruct syntax; try discriminate;
      try reflexivity.
    by intros ->%bool_decide_eq_true.
  - intros ->. destruct syntax; try reflexivity. by apply bool_decide_eq_true.
Qed.

Lemma removelast_elem_of (token : Tok) (tokens : list Tok) :
  token ∈ removelast tokens -> token ∈ tokens.
Proof.
  induction tokens as [|first [|second rest] IH]; simpl; [done|by intros ?%elem_of_nil|].
  intros [->|Hin]%elem_of_cons; [apply list_elem_of_here|].
  apply list_elem_of_further. by apply IH.
Qed.

Lemma parse_PointerDeref_blames (tokens : list Tok) (line : Z) :
  blames tokens (parse_PointerDeref int_of_str tokens line).
Proof.
  unfold parse_PointerDeref. destruct tokens as [|first rest]; [by intros exc|].
  simpl empty_token_check. simpl bind at 1. simpl index. simpl bind at 1.
  unfold index_last. simpl bind at 1.
  destruct (negb (value_is first Syntax_lbracket)
            || negb (value_is (List.last rest first) Syntax_rbracket)) eqn:Hbrackets;
    [by intros exc|].
  apply orb_false_elim in Hbrackets as [Hopen Hclose].
  apply negb_false_iff, value_is_true in Hopen.
  apply negb_false_iff, value_is_true in Hclose.
  destruct rest as [|second rest]; [simpl in Hclose; congruence|].
  simpl index. simpl bind at 1.
  apply bind_blames.
  { apply (blames_weaken [second]); [|apply parse_Register_blames].
    intros token ->%list_elem_of_singleton.
    apply list_elem_of_further, list_elem_of_here. }
  intros r _. destruct rest as [|third rest]; [by intros exc|].
  destruct rest as [|fourth rest]; [by intros exc|].
  change (3 <? length (first :: second :: third :: fourth :: rest))%nat with true.
  simpl index. simpl bind at 1.
  destruct (negb (value_is third Syntax_plus)); [by intros exc|].
  unfold increment_tokens, drop.
  apply bind_blames; [|by intros inc _ exc].
  apply (blames_weaken (removelast (fourth :: rest))).
  { intros token Hin%removelast_elem_of. by do 3 apply list_elem_of_further. }
  generalize (removelast (fourth :: rest)). intros inc exc.
  destruct (parse_Uint16 int_of_str inc line) as [n|e|exc'] eqn:Hnumber; simpl;
    try discriminate.
  - destruct (parse_Shift int_of_str inc line) as [sh|e'|exc'] eqn:Hshift; simpl;
      try discriminate.
    intros Heq. simplify_eq. by eapply parse_Shift_blames.
  - intros Heq. simplify_eq. by eapply (parse_number_blames Uint16).
Qed.

Lemma parse_arg_blames (arg_type : ArgType) (tokens : list Tok) (line : Z) :
  blames tokens (parse_arg int_of_str arg_type tokens line).
Proof.
  unfold parse_arg.
  destruct arg_type; (apply bind_blames; [|by intros ? _ ?]).
  - apply parse_Register_blames.
  - apply parse_PointerDeref_blames.
  - apply parse_Shift_blames.
  - apply parse_number_blames.
  - apply parse_number_blames.
Qed.

(** X7. The exceptions of the operand parsers. No parser indexes its slice
    out of range, and none uses a variable it has not set: an exception that
    is not a [ParseError] is neither an [IndexError] nor an
    [UnboundLocalError], and the slice then holds a token whose payload does
    not go with its type, or a STRING token. *)
Theorem parse_arg_exceptions (arg_type : ArgType) (tokens : list Tok) (line : Z)
    (exc : PyException) :
  parse_arg int_of_str arg_type tokens line = Raise exc ->
  exc <> IndexError /\ exc <> UnboundLocalError /\
  exists token,
    token ∈ tokens /\ (well_typed token = false \/ Token.type token = STRING).
Proof.
  intros [Hkind Hblame]%parse_arg_blames.
  split; [|split; [|exact Hblame]]; intros ->; by destruct Hkind.
Qed.

(** *** The slices the shift and pointer parsers accept *)

Lemma Register_parse_Return (token : Tok) (line : Z) (r : Register) :
  Register_parse token line = Return r
  <-> Token.type token = REGISTER /\ Token.value token = VRegister r.
Proof.
  unfold Register_parse. rewrite parse_Register_Return. split.
  - intros (token' & [= <-] & Hty & Hval). done.
  - intros [Hty Hval]. by exists token.
Qed.

Lemma ShiftType_of_name_Return (v : TokenValue Register) (shift_type : ShiftType) :
  ShiftType_of_name v = Return shift_type
  <-> v = VSyntax (Syntax_of_ShiftType shift_type).
Proof.
  unfold ShiftType_of_name. split.
  - destruct v as [| | | |[]]; intros; by simplify_eq.
  - intros ->. by destruct shift_type.
Qed.

(** X8. [parse_Shift] accepts exactly two shapes of slice: a register token
    alone, which is the shift [<<] by 0, and a register token, a token whose
    value is [<<] or [>>], and one token that is read as a 5-bit number. *)
Theorem parse_Shift_accepts (tokens : list Tok) (line : Z) (s : Shift Register) :
  parse_Shift int_of_str tokens line = Return s
  <-> exists first,
        Token.type first = REGISTER /\ Token.value first = VRegister (shift_register s) /\
        ((tokens = [first] /\ shift_type s = ShiftType_shl /\
          amount s = {| num_type := Uint5; num := 0 |}) \/
         (exists operator number,
            tokens = [first; operator; number] /\
            Token.value operator = VSyntax (Syntax_of_ShiftType (shift_type s)) /\
            extract_token_num int_of_str number Uint5 line = Return (amount s))).
Proof.
  unfold parse_Shift. split.
  - destruct tokens as [|first rest]; [discriminate|]. simpl.
    destruct (Register_parse first line) as [r| |] eqn:Hreg; try discriminate.
    apply Register_parse_Return in Hreg as [Hty Hval]. simpl.
    destruct rest as [|second rest]; simpl.
    + intros [= <-]. exists first. simpl.
      split; [assumption|]. split; [assumption|]. by left.
    + destruct (is_shift_operator (Token.value second)); [|discriminate]. simpl.
      destruct (ShiftType_of_name (Token.value second)) as [shift_type| |] eqn:Hop;
        try discriminate.
      apply ShiftType_of_name_Return in Hop. simpl. unfold drop.
      destruct (extact_token rest line) as [number| |] eqn:Hone; try discriminate.
      apply extact_token_Return in Hone as ->. simpl.
      destruct (extract_token_num int_of_str number Uint5 line) as [n| |] eqn:Hnum;
        try discriminate.
      simpl. intros [= <-]. exists first. simpl.
      split; [assumption|]. split; [assumption|]. right. by exists second, number.
  - intros (first & Hty & Hval & Hshape).
    assert (Hreg : Register_parse first line = Return (shift_register s))
      by by apply Register_parse_Return.
    destruct s as [shift_type r n]. simpl in *.
    destruct Hshape as [(-> & -> & ->) | (operator & number & -> & Hop & Hnum)]; simpl.
    + by rewrite Hreg.
    + rewrite Hreg. simpl. rewrite Hop.
      destruct shift_type; simpl; by rewrite Hnum.
Qed.

(** [parse_PointerDeref] on a slice of more than three tokens, cut as the
    parser cuts it. *)
Lemma parse_PointerDeref_long (first second third final : Tok) (inc : list Tok)
    (line : Z) :
  parse_PointerDeref int_of_str (first :: second :: third :: inc ++ [final]) line
  = if negb (value_is first Syntax_lbracket) || negb (value_is final Syntax_rbracket)
    then ParseError
           (Invalid_pointer_dereference (first :: second :: third :: inc ++ [final])) line
    else
      let! r := Register_parse second line in
      if negb (value_is third Syntax_plus)
      then ParseError (Expected_plus_sign (Token.text third)) line
      else
        match parse_Uint16 int_of_str inc line with
        | Return n => Return (mkPointerDeref r (IncrementNumber n))
        | Raise_ParseError _ =>
            match parse_Shift int_of_str inc line with
            | Return sh => Return (mkPointerDeref r (IncrementShift sh))
            | Raise_ParseError _ =>
                ParseError
                  (Increment_is_invalid (String.concat "" (map Token.text inc))) line
            | Raise exc => Raise exc
            end
        | Raise exc => Raise exc
        end.
Proof.
  unfold parse_PointerDeref.
  change (first :: second :: third :: inc ++ [final])
    with (first :: (second :: third :: inc) ++ [final]) at 3.
  rewrite index_last_bracketed, increment_tokens_bracketed.
  assert (Hlen : (3 <? length (first :: second :: third :: inc ++ [final]))%nat = true).
  { apply Nat.ltb_lt. simpl. rewrite length_app. simpl. lia. }
  rewrite Hlen. simpl.
  destruct (_ || _); [reflexivity|].
  destruct (Register_parse second line) as [r| |]; simpl; try reflexivity.
  destruct (negb (value_is third Syntax_plus)); [reflexivity|].
  destruct (parse_Uint16 int_of_str inc line) as [n|e|exc]; simpl; try reflexivity.
  destruct (parse_Shift int_of_str inc line) as [sh|e'|exc]; reflexivity.
Qed.

(** X9. [parse_PointerDeref] accepts exactly two shapes of slice, both
    between a token whose value is [[] and one whose value is []]:
    a register token alone, with increment 0, and a register token, a token
    whose value is [+] and an increment that parses as a 16-bit number or,
    when it does not, as a shift. *)
Theorem parse_PointerDeref_accepts (tokens : list Tok) (line : Z)
    (p : PointerDeref Register) :
  parse_PointerDeref int_of_str tokens line = Return p
  <-> exists first reg final,
        Token.value first = VSyntax Syntax_lbracket /\
        Token.value final = VSyntax Syntax_rbracket /\
        Token.type reg = REGISTER /\ Token.value reg = VRegister (register p) /\
        ((tokens = [first; reg; final] /\
          increment p = IncrementNumber {| num_type := Uint16; num := 0 |}) \/
         (exists plus inc,
            tokens = first :: reg :: plus :: inc ++ [final] /\
            Token.value plus = VSyntax Syntax_plus /\
            ((exists n,
                parse_Uint16 int_of_str inc line = Return n /\
                increment p = IncrementNumber n) \/
             (exists e sh,
                parse_Uint16 int_of_str inc line = Raise_ParseError e /\
                parse_Shift int_of_str inc line = Return sh /\
                increment p = IncrementShift sh)))).
Proof.
  split.
  - intros H. destruct tokens as [|first [|second [|third rest]]].
    + discriminate.
    + unfold parse_PointerDeref in H. simpl in H.
      destruct (value_is first Syntax_lbracket) eqn:Hopen; [|discriminate].
      destruct (value_is first Syntax_rbracket) eqn:Hclose; [|discriminate].
      apply value_is_true in Hopen. apply value_is_true in Hclose. congruence.
    + unfold parse_PointerDeref in H. simpl in H.
      destruct (_ || _) eqn:Hbrackets; [discriminate|].
      apply orb_false_elim in Hbrackets as [_ Hclose].
      apply negb_false_iff, value_is_true in Hclose.
      destruct (Register_parse second line) as [r| |] eqn:Hreg; try discriminate.
      apply Register_parse_Return in Hreg as [_ Hval]. congruence.
    + destruct rest as [|fourth rest].
      * unfold parse_PointerDeref in H. simpl in H.
        destruct (_ || _) eqn:Hbrackets; [discriminate|].
        apply orb_false_elim in Hbrackets as [Hopen Hclose].
        apply negb_false_iff, value_is_true in Hopen.
        apply negb_false_iff, value_is_true in Hclose.
        destruct (Register_parse second line) as [r| |] eqn:Hreg; try discriminate.
        apply Register_parse_Return in Hreg as [Hty Hval].
        simpl in H. injection H as <-.
        exists first, second, third. simpl. repeat (split; [assumption|]). by left.
      * destruct (@exists_last _ (fourth :: rest)) as (inc & final & Hcut);
          [discriminate|].
        rewrite Hcut in *. rewrite parse_PointerDeref_long in H.
        destruct (_ || _) eqn:Hbrackets; [discriminate|].
        apply orb_false_elim in Hbrackets as [Hopen Hclose].
        apply negb_false_iff, value_is_true in Hopen.
        apply negb_false_iff, value_is_true in Hclose.
        destruct (Register_parse second line) as [r| |] eqn:Hreg; try discriminate.
        apply Register_parse_Return in Hreg as [Hty Hval]. simpl in H.
        destruct (negb (value_is third Syntax_plus)) eqn:Hplus; [discriminate|].
        apply negb_false_iff, value_is_true in Hplus.
        exists first, second, final.
        destruct (parse_Uint16 int_of_str inc line) as [n|e|exc] eqn:Hnumber;
          try discriminate.
        { injection H as <-. simpl. repeat (split; [assumption|]).
          right. exists third, inc. repeat (split; [done|]). left. by exists n. }
        destruct (parse_Shift int_of_str inc line) as [sh|e'|exc] eqn:Hshift;
          try discriminate.
        injection H as <-. simpl. repeat (split; [assumption|]).
        right. exists third, inc. repeat (split; [done|]). right. by exists e, sh.
  - intros (first & reg & final & Hopen & Hclose & Hty & Hval & Hshape).
    assert (Hreg : Register_parse reg line = Return (register p))
      by by apply Register_parse_Return.
    apply value_is_true in Hopen. apply value_is_true in Hclose.
    destruct p as [r i]. simpl in *.
    destruct Hshape as [[-> ->] | (plus & inc & -> & Hplus & Hinc)].
    + unfold parse_PointerDeref. simpl. rewrite Hopen, Hclose. simpl.
      by rewrite Hreg.
    + rewrite parse_PointerDeref_long, Hopen, Hclose. simpl. rewrite Hreg. simpl.
      apply value_is_true in Hplus. rewrite Hplus. simpl.
      destruct Hinc as [(n & -> & ->) | (e & sh & -> & -> & ->)]; reflexivity.
Qed.

End OperandParsers.

Section Dispatcher.
Context {Register : Type}.
Variable int_of_str : string -> Z.

Local Abbreviation Tok := (Token.t Register).

(** *** The exceptions of parse_args *)

Lemma try_arg_types_Uncaught (arg_types : list ArgType) (arg : list Tok)
    (error error' : option (ErrorText Register)) (exc : PyException) :
  try_arg_types int_of_str arg_types arg error = (Uncaught exc, error') ->
  (exc = IndexError /\ arg = []) \/
  (exists arg_type first,
     arg_type ∈ arg_types /\ head arg = Some first /\
     parse_arg int_of_str arg_type arg (Token.line first) = Raise exc).
Proof.
  revert error. induction arg_types as [|arg_type arg_types IH]; intros error; simpl;
    [discriminate|].
  destruct arg as [|first rest]; simpl.
  - intros [= <- _]. by left.
  - destruct (parse_arg int_of_str arg_type (first :: rest) (Token.line first))
      as [v|e|exc'] eqn:Hrun.
    + discriminate.
    + intros H. apply IH in H as [[_ ?]|(t & first' & Hin & Hhead & Hexc)];
        [discriminate|].
      right. exists t, first'. split; [by apply list_elem_of_further|done].
    + intros [= <- _]. right. exists arg_type, first.
      split; [apply list_elem_of_here|done].
Qed.

Lemma try_arg_types_bound (arg_types : list ArgType) (arg : list Tok)
    (e : ErrorText Register) (error' : option (ErrorText Register)) :
  try_arg_types int_of_str arg_types arg (Some e) = (Exhausted, error') ->
  exists e', error' = Some e'.
Proof.
  revert e. induction arg_types as [|arg_type arg_types IH]; intros e; simpl.
  - intros [= <-]. by eexists.
  - destruct (let! first := index arg 0 in _) as [v|e1|exc]; try discriminate.
    apply IH.
Qed.

Lemma try_arg_types_unbound (arg_types : list ArgType) (arg : list Tok)
    (error : option (ErrorText Register)) :
  try_arg_types int_of_str arg_types arg error = (Exhausted, None) ->
  arg_types = [] /\ error = None.
Proof.
  destruct arg_types as [|arg_type arg_types]; simpl; [by intros [= ->]|].
  destruct (let! first := index arg 0 in _) as [v|e|exc]; try discriminate.
  intros [e' He']%try_arg_types_bound. discriminate.
Qed.

Lemma parse_args_loop_exceptions (pairs : list (ArgSpec * list Tok))
    (errors : list (ErrorText Register)) (error : option (ErrorText Register))
    (yielded : list (InstructionArg Register)) (exc : PyException) :
  parse_args_loop int_of_str pairs errors error yielded = Raise exc ->
  exists arg_types arg,
    (arg_types, arg) ∈ pairs /\
    ((exc = IndexError /\ arg = []) \/
     (exc = UnboundLocalError /\ as_tuple arg_types = []) \/
     (exc <> IndexError /\ exc <> UnboundLocalError /\
      exists token,
        token ∈ arg /\ (well_typed token = false \/ Token.type token = STRING))).
Proof.
  revert errors error yielded.
  induction pairs as [|[arg_types arg] pairs IH]; intros errors error yielded; simpl;
    [by destruct errors|].
  assert (Hlater : forall errors' error' yielded',
            parse_args_loop int_of_str pairs errors' error' yielded' = Raise exc ->
            exists arg_types' arg',
              (arg_types', arg') ∈ (arg_types, arg) :: pairs /\
              ((exc = IndexError /\ arg' = []) \/
               (exc = UnboundLocalError /\ as_tuple arg_types' = []) \/
               (exc <> IndexError /\ exc <> UnboundLocalError /\
                exists token,
                  token ∈ arg' /\
                  (well_typed token = false \/ Token.type token = STRING)))).
  { intros errors' error' yielded' (arg_types' & arg' & Hin & Hcase)%IH.
    exists arg_types', arg'. split; [by apply list_elem_of_further|assumption]. }
  destruct (try_arg_types int_of_str (as_tuple arg_types) arg error)
    as [[v| |exc'] error'] eqn:Htry.
  - apply Hlater.
  - destruct error' as [e|]; [apply Hlater|].
    intros [= <-]. apply try_arg_types_unbound in Htry as [Hnone _].
    exists arg_types, arg. split; [apply list_elem_of_here|]. right; left. done.
  - intros [= <-]. exists arg_types, arg. split; [apply list_elem_of_here|].
    apply try_arg_types_Uncaught in Htry as [[-> ->]|(t & first & _ & Hhead & Hexc)].
    + by left.
    + right; right. apply parse_arg_blames in Hexc as [Hkind Hblame].
      split; [|split; [|exact Hblame]]; intros ->; by destruct Hkind.
Qed.

(** X10. The exceptions of the dispatcher that are not a [ParseError]. An
    [IndexError] comes from an empty operand group and from nothing else, an
    [UnboundLocalError] from a position without any class to try, and any
    other exception from an operand parser, with a token of a group to
    blame: one whose payload does not go with its type, or a STRING token. *)
Theorem parse_args_exceptions (parser_types : list ArgSpec) (args : list (list Tok))
    (exc : PyException) :
  parse_args int_of_str parser_types args = Raise exc ->
  (exc = IndexError /\ [] ∈ args) \/
  (exc = UnboundLocalError /\
   exists arg_types, arg_types ∈ parser_types /\ as_tuple arg_types = []) \/
  (exc <> IndexError /\ exc <> UnboundLocalError /\
   exists arg token,
     arg ∈ args /\ token ∈ arg /\
     (well_typed token = false \/ Token.type token = STRING)).
Proof.
  unfold parse_args.
  intros (arg_types & arg & Hin & Hcase)%parse_args_loop_exceptions.
  apply list_elem_of_In in Hin.
  pose proof (in_combine_l _ _ _ _ Hin) as Htypes%list_elem_of_In.
  pose proof (in_combine_r _ _ _ _ Hin) as Hargs%list_elem_of_In.
  destruct Hcase as [[-> ->]|[[-> Hnone]|(Hindex & Hunbound & token & Htoken & Hbad)]].
  - by left.
  - right; left. split; [reflexivity|]. by exists arg_types.
  - right; right. split; [assumption|]. split; [assumption|]. by exists arg, token.
Qed.

(** *** What parse_args returns *)

(** The value of a position: the parse of its group by the first class of
    the position that accepts it, the classes before having refused it. *)
Local Abbreviation accepted_by arg_types arg value :=
  (exists refused arg_type rest first,
     as_tuple arg_types = refused ++ arg_type :: rest /\
     head arg = Some first /\
     Forall (fun t => exists e,
               parse_arg int_of_str t arg (Token.line first) = Raise_ParseError e)
            refused /\
     parse_arg int_of_str arg_type arg (Token.line first) = Return value).

Lemma try_arg_types_Parsed (arg_types : list ArgType) (arg : list Tok)
    (error error' : option (ErrorText Register)) (value : InstructionArg Register) :
  try_arg_types int_of_str arg_types arg error = (Parsed value, error') ->
  exists refused arg_type rest first,
    arg_types = refused ++ arg_type :: rest /\
    head arg = Some first /\
    Forall (fun t => exists e,
              parse_arg int_of_str t arg (Token.line first) = Raise_ParseError e)
           refused /\
    parse_arg int_of_str arg_type arg (Token.line first) = Return value.
Proof.
  revert error. induction arg_types as [|arg_type arg_types IH]; intros error; simpl;
    [discriminate|].
  destruct arg as [|first tokens]; simpl; [discriminate|].
  destruct (parse_arg int_of_str arg_type (first :: tokens) (Token.line first))
    as [v|e|exc] eqn:Hrun.
  - intros [= <- _]. by exists [], arg_type, arg_types, first.
  - intros H. apply IH in H as (refused & t & rest & first' & -> & Hhead & Hall & Hv).
    simpl in Hhead. injection Hhead as <-.
    exists (arg_type :: refused), t, rest, first.
    split; [reflexivity|]. split; [reflexivity|]. split; [|assumption].
    constructor; [by exists e|assumption].
  - discriminate.
Qed.

Lemma parse_args_loop_Return_errors (pairs : list (ArgSpec * list Tok))
    (errors : list (ErrorText Register)) (error : option (ErrorText Register))
    (yielded values : list (InstructionArg Register)) :
  parse_args_loop int_of_str pairs errors error yielded = Return values ->
  errors = [].
Proof.
  revert errors error yielded.
  induction pairs as [|[arg_types arg] pairs IH]; intros errors error yielded; simpl.
  - by destruct errors.
  - destruct (try_arg_types int_of_str (as_tuple arg_types) arg error)
      as [[v| |exc] [e|]]; try discriminate.
    + apply IH.
    + apply IH.
    + intros H. apply IH in H. by destruct errors.
Qed.

Lemma parse_args_loop_Return (pairs : list (ArgSpec * list Tok))
    (error : option (ErrorText Register))
    (yielded values : list (InstructionArg Register)) :
  parse_args_loop int_of_str pairs [] error yielded = Return values ->
  exists new,
    values = yielded ++ new /\
    Forall2 (fun pair value => accepted_by (fst pair) (snd pair) value) pairs new.
Proof.
  revert error yielded.
  induction pairs as [|[arg_types arg] pairs IH]; intros error yielded; simpl.
  - intros [= <-]. exists []. by rewrite app_nil_r.
  - destruct (try_arg_types int_of_str (as_tuple arg_types) arg error)
      as [[v| |exc] error'] eqn:Htry.
    + intros H. apply IH in H as (new & -> & Hnew).
      exists (v :: new). split; [by rewrite <- app_assoc|].
      constructor; [|assumption]. by eapply try_arg_types_Parsed.
    + destruct error' as [e|]; [|discriminate].
      intros H. by apply parse_args_loop_Return_errors in H.
    + discriminate.
Qed.

(** X11. What the dispatcher returns. There is one value for each position
    that has a group, in the order of the positions, and the value of a
    position is the parse of its group by the first class of the position
    that accepts it, with the line number of the first token of the group:
    the classes declared before it have all refused the group. *)
Theorem parse_args_values (parser_types : list ArgSpec) (args : list (list Tok))
    (values : list (InstructionArg Register)) :
  parse_args int_of_str parser_types args = Return values ->
  length values = Nat.min (length parser_types) (length args) /\
  Forall2 (fun pair value => accepted_by (fst pair) (snd pair) value)
    (combine parser_types args) values.
Proof.
  unfold parse_args. intros (new & -> & Hnew)%parse_args_loop_Return. simpl.
  split; [|assumption].
  apply Forall2_length in Hnew. by rewrite <- Hnew, length_combine.
Qed.

(** *** What parse_args reports *)

Lemma try_arg_types_refused (alternatives : list ArgType) (last_type : ArgType)
    (arg : list Tok) (first : Tok) (error : option (ErrorText Register))
    (e : ErrorText Register) :
  head arg = Some first ->
  Forall (fun t => exists e',
            parse_arg int_of_str t arg (Token.line first) = Raise_ParseError e')
         alternatives ->
  parse_arg int_of_str last_type arg (Token.line first) = Raise_ParseError e ->
  try_arg_types int_of_str (alternatives ++ [last_type]) arg error = (Exhausted, Some e).
Proof.
  intros Hhead Hall Hlast. destruct arg as [|first' tokens]; [discriminate|].
  injection Hhead as ->. revert error.
  induction Hall as [|t alternatives [e' He'] _ IH]; intros error; simpl.
  - by rewrite Hlast.
  - rewrite He'. apply IH.
Qed.

Lemma concat_elem_of {A} (x : A) (l : list A) (ls : list (list A)) :
  x ∈ l -> l ∈ ls -> x ∈ concat ls.
Proof.
  rewrite !list_elem_of_In. intros Hx Hl. apply in_concat. eauto.
Qed.

Lemma parse_args_loop_reports (pairs : list (ArgSpec * list Tok))
    (errors : list (ErrorText Register)) (error : option (ErrorText Register))
    (yielded : list (InstructionArg Register)) (es : ErrorText Register) :
  parse_args_loop int_of_str pairs errors error yielded = Raise_ParseError es ->
  (forall e entry, e ∈ errors -> entry ∈ e -> entry ∈ es) /\
  (forall arg_types arg first alternatives last_type e entry,
     (arg_types, arg) ∈ pairs ->
     head arg = Some first ->
     as_tuple arg_types = alternatives ++ [last_type] ->
     Forall (fun t => exists e',
               parse_arg int_of_str t arg (Token.line first) = Raise_ParseError e')
            alternatives ->
     parse_arg int_of_str last_type arg (Token.line first) = Raise_ParseError e ->
     entry ∈ e -> entry ∈ es).
Proof.
  revert errors error yielded.
  induction pairs as [|[arg_types arg] pairs IH]; intros errors error yielded; simpl.
  - destruct errors as [|e0 errors]; [discriminate|]. intros [= <-]. split.
    + intros e entry He Hentry.
      exact (concat_elem_of entry e (e0 :: errors) Hentry He).
    + intros ? ? ? ? ? ? ? Hin. by apply elem_of_nil in Hin.
  - destruct (try_arg_types int_of_str (as_tuple arg_types) arg error)
      as [[v| |exc] error'] eqn:Htry.
    + intros [Herrors Hpairs]%IH. split; [assumption|].
      intros arg_types' arg' first alternatives last_type e entry
        [[= -> ->]|Hin]%elem_of_cons Hhead Hcut Hall Hlast Hentry.
      * rewrite Hcut in Htry.
        by rewrite (try_arg_types_refused _ _ _ first _ e) in Htry.
      * by eapply Hpairs.
    + destruct error' as [e0|]; [|discriminate].
      intros [Herrors Hpairs]%IH. split.
      * intros e entry He. apply Herrors. apply elem_of_app. by left.
      * intros arg_types' arg' first alternatives last_type e entry
          [[= -> ->]|Hin]%elem_of_cons Hhead Hcut Hall Hlast Hentry.
        -- rewrite Hcut in Htry.
           rewrite (try_arg_types_refused _ _ _ first _ e) in Htry by assumption.
           injection Htry as <-. apply (Herrors e); [|assumption].
           apply elem_of_app. right. apply list_elem_of_here.
        -- by eapply Hpairs.
    + discriminate.
Qed.

(** X12. The dispatcher does not stop at the first operand it refuses. When
    it raises its [ParseError], every position whose classes all refuse the
    group of the position is reported: the error of the last class tried is
    part of what is raised. *)
Theorem parse_args_reports_every_refusal (parser_types : list ArgSpec)
    (args : list (list Tok)) (es : ErrorText Register)
    (arg_types : ArgSpec) (arg : list Tok) (first : Tok)
    (alternatives : list ArgType) (last_type : ArgType) (e : ErrorText Register) :
  parse_args int_of_str parser_types args = Raise_ParseError es ->
  (arg_types, arg) ∈ combine parser_types args ->
  head arg = Some first ->
  as_tuple arg_types = alternatives ++ [last_type] ->
  Forall (fun t => exists e',
            parse_arg int_of_str t arg (Token.line first) = Raise_ParseError e')
         alternatives ->
  parse_arg int_of_str last_type arg (Token.line first) = Raise_ParseError e ->
  forall entry, entry ∈ e -> entry ∈ es.
Proof.
  unfold parse_args. intros [_ Hpairs]%parse_args_loop_reports Hin Hhead Hcut Hall Hlast.
  intros entry. by eapply Hpairs.
Qed.

(** *** The entries parse_args reports *)

(** The entry is the error with which a class of a position has refused the
    group of that position; it carries the line number of the first token of
    the group. *)
Local Abbreviation refused_at pairs entry :=
  (exists (arg_types : ArgSpec) (arg : list Tok) arg_type first,
     (arg_types, arg) ∈ pairs /\ arg_type ∈ as_tuple arg_types /\
     head arg = Some first /\
     parse_arg int_of_str arg_type arg (Token.line first) = Raise_ParseError [entry] /\
     snd entry = Token.line first).

Lemma try_arg_types_error (arg_types : list ArgType) (arg : list Tok)
    (error : option (ErrorText Register)) (outcome : Trial Register)
    (e : ErrorText Register) :
  try_arg_types int_of_str arg_types arg error = (outcome, Some e) ->
  error = Some e \/
  exists arg_type first message,
    arg_type ∈ arg_types /\ head arg = Some first /\
    e = [(message, Token.line first)] /\
    parse_arg int_of_str arg_type arg (Token.line first) = Raise_ParseError e.
Proof.
  revert error. induction arg_types as [|arg_type arg_types IH]; intros error; simpl.
  - intros [= _ ->]. by left.
  - destruct arg as [|first tokens]; simpl; [intros [= _ ->]; by left|].
    destruct (parse_arg int_of_str arg_type (first :: tokens) (Token.line first))
      as [v|e1|exc] eqn:Hrun.
    + intros [= _ ->]. by left.
    + intros [[= ->]|(t & first' & message & Hin & Hhead & -> & Ht)]%IH.
      * right. destruct (parse_arg_at_line int_of_str _ _ _ _ Hrun) as [message ->].
        exists arg_type, first, message. split; [apply list_elem_of_here|done].
      * right. exists t, first', message. split; [by apply list_elem_of_further|done].
    + intros [= _ ->]. by left.
Qed.

Lemma parse_args_loop_entries (all pairs : list (ArgSpec * list Tok))
    (errors : list (ErrorText Register)) (error : option (ErrorText Register))
    (yielded : list (InstructionArg Register)) (es : ErrorText Register) :
  (forall pair, pair ∈ pairs -> pair ∈ all) ->
  (forall e entry, e ∈ errors -> entry ∈ e -> refused_at all entry) ->
  (forall e entry, error = Some e -> entry ∈ e -> refused_at all entry) ->
  parse_args_loop int_of_str pairs errors error yielded = Raise_ParseError es ->
  forall entry, entry ∈ es -> refused_at all entry.
Proof.
  revert errors error yielded.
  induction pairs as [|[arg_types arg] pairs IH];
    intros errors error yielded Hpairs Herrors Herror; simpl.
  - destruct errors as [|e0 errors]; [discriminate|]. intros [= <-] entry Hentry.
    change (entry ∈ concat (e0 :: errors)) in Hentry.
    apply list_elem_of_In, in_concat in Hentry as (e & He & Hentry).
    apply (Herrors e); by apply list_elem_of_In.
  - assert (Hhere : (arg_types, arg) ∈ all) by apply Hpairs, list_elem_of_here.
    assert (Hrest : forall pair, pair ∈ pairs -> pair ∈ all)
      by (intros pair Hin; by apply Hpairs, list_elem_of_further).
    assert (Hnew : forall outcome e0 entry,
              try_arg_types int_of_str (as_tuple arg_types) arg error = (outcome, Some e0) ->
              entry ∈ e0 -> refused_at all entry).
    { intros outcome e0 entry Htry Hentry.
      apply try_arg_types_error in Htry
        as [->|(t & first & message & Hin & Hhead & -> & Ht)].
      - by eapply Herror.
      - apply list_elem_of_singleton in Hentry as ->.
        by exists arg_types, arg, t, first. }
    destruct (try_arg_types int_of_str (as_tuple arg_types) arg error)
      as [[v| |exc] error'] eqn:Htry; try discriminate.
    + apply IH; try assumption. intros e entry ->. by eapply Hnew.
    + destruct error' as [e0|]; [|discriminate].
      apply IH; try assumption.
      * intros e entry [He| ->%list_elem_of_singleton]%elem_of_app Hentry;
          [by eapply Herrors|by eapply Hnew].
      * intros e entry [= <-]. by eapply Hnew.
Qed.

Lemma parse_args_entries (parser_types : list ArgSpec) (args : list (list Tok))
    (es : ErrorText Register) :
  parse_args int_of_str parser_types args = Raise_ParseError es ->
  forall entry, entry ∈ es -> refused_at (combine parser_types args) entry.
Proof.
  unfold parse_args. apply parse_args_loop_entries.
  - done.
  - intros e entry Hin. by apply elem_of_nil in Hin.
  - discriminate.
Qed.

End Dispatcher.

Section LineLoop.
Context {Register : Type}.
Variable int_of_str : string -> Z.

Local Abbreviation Tok := (Token.t Register).
Local Abbreviation Vars := (Locals.t Register).

(** *** A line that completes *)

(** A line completes in one of two ways: as the definition of a label, or as
    an instruction whose operands the dispatcher has parsed. *)
Lemma parse_line_Return (line : list Tok) (vars vars' : Vars) :
  parse_line int_of_str line vars = (vars', Return tt) ->
  (exists name,
     is_label_definition name line = true /\
     vars' = set_symbol name (Locals.ip vars + 1) vars) \/
  (exists first rest i args,
     line = first :: rest /\ ends_with_colon line = false /\
     Token.type first = INSTRUCTION /\ Token.value first = VInstruction i /\
     parse_args int_of_str (InstructionEnum.value i) (comma_split rest) = Return args /\
     vars' = append_instruction (Instruction.mk i args)
               (after_arity_check i (comma_split rest) (Token.line first) vars)).
Proof.
  destruct line as [|first rest]; [discriminate|].
  destruct (ends_with_colon (first :: rest)) eqn:Hcolon.
  - intros H. left. unfold parse_line, then_, eval, update, read, assert in H.
    simpl in H, Hcolon. rewrite Hcolon in H.
    destruct (is_TokenType (Token.type (List.last rest first)) SYNTAX) eqn:Hct;
      [|discriminate].
    destruct rest as [|colon [|]]; try discriminate. simpl in *.
    destruct (is_TokenType (Token.type first) LABEL) eqn:Hlt; [|discriminate].
    destruct (Token.value first) as [| | |name|] eqn:Hlv; try discriminate.
    simpl in H. injection H as <-. exists name. split; [|reflexivity].
    apply bool_decide_eq_true in Hct, Hlt. apply value_is_true in Hcolon.
    rewrite Hcolon. by rewrite !bool_decide_eq_true_2.
  - intros H. right.
    assert (Hfirst : Token.type first = INSTRUCTION /\
                     exists i, Token.value first = VInstruction i).
    { unfold parse_line, then_, eval, update, read, assert in H.
      simpl in H, Hcolon. rewrite Hcolon in H. simpl in H.
      destruct (is_TokenType (Token.type first) INSTRUCTION) eqn:Hty; [|discriminate].
      apply bool_decide_eq_true in Hty. split; [assumption|].
      destruct (Token.value first) as [i| | | |]; try discriminate. by exists i. }
    destruct Hfirst as [Hty [i Hval]].
    rewrite (parse_line_instruction int_of_str first rest i) in H by assumption.
    simpl in H.
    destruct (parse_args int_of_str (InstructionEnum.value i) (comma_split rest))
      as [args| |] eqn:Hargs; try discriminate.
    injection H as <-. by exists first, rest, i, args.
Qed.

Lemma is_label_definition_colon (name : string) (line : list Tok) :
  is_label_definition name line = true -> ends_with_colon line = true.
Proof.
  intros (label & colon & -> & _ & _ & _ & Hcolon)%is_label_definition_inv.
  simpl. by apply value_is_true.
Qed.

Lemma instruction_lines_label (name : string) (line : list Tok)
    (tokens : list (list Tok)) :
  is_label_definition name line = true ->
  instruction_lines (line :: tokens) = instruction_lines tokens.
Proof.
  intros Hcolon%is_label_definition_colon. unfold instruction_lines. simpl.
  by rewrite Hcolon.
Qed.

Lemma instruction_lines_instruction (line : list Tok) (tokens : list (list Tok)) :
  ends_with_colon line = false ->
  instruction_lines (line :: tokens) = line :: instruction_lines tokens.
Proof. intros Hcolon. unfold instruction_lines. simpl. by rewrite Hcolon. Qed.

(** The loop completes when each of its lines does. *)
Lemma parse_lines_cons_Return (line : list Tok) (tokens : list (list Tok))
    (vars vars' : Vars) :
  parse_lines int_of_str (line :: tokens) vars = (vars', Return tt) ->
  exists mid,
    parse_line int_of_str line vars = (mid, Return tt) /\
    parse_lines int_of_str tokens mid = (vars', Return tt).
Proof.
  simpl. unfold then_.
  destruct (parse_line int_of_str line vars) as [mid [[]| |]]; try discriminate.
  eauto.
Qed.

Lemma parse_Return (tokens : list (list Tok)) (result : InstructionsNT.t Register) :
  parse int_of_str tokens = Return result ->
  exists vars,
    parse_lines int_of_str tokens initial = (vars, Return tt) /\
    Locals.errors vars = [] /\
    result = InstructionsNT.mk (Locals.instructions vars) (Locals.symbol_table vars).
Proof.
  rewrite parse_unfold.
  destruct (parse_lines int_of_str tokens initial) as [vars [[]| |]]; try discriminate.
  destruct (Locals.errors vars) eqn:Herrors; [|discriminate].
  intros [= <-]. by exists vars.
Qed.

(** *** The instructions of the result *)

Lemma parse_args_length (parser_types : list ArgSpec) (args : list (list Tok))
    (values : list (InstructionArg Register)) :
  parse_args int_of_str parser_types args = Return values ->
  length values = Nat.min (length parser_types) (length args).
Proof.
  unfold parse_args. intros (new & -> & Hnew)%parse_args_loop_Return. simpl.
  apply Forall2_length in Hnew. by rewrite <- Hnew, length_combine.
Qed.

Local Abbreviation full_arity :=
  (fun instruction : Instruction.t Register =>
     length (Instruction.args instruction)
     = length (InstructionEnum.value (Instruction.type instruction))).

Lemma parse_line_full_arity (line : list Tok) (vars vars' : Vars) :
  parse_line int_of_str line vars = (vars', Return tt) ->
  (Locals.errors vars = [] -> Forall full_arity (Locals.instructions vars)) ->
  Locals.errors vars' = [] -> Forall full_arity (Locals.instructions vars').
Proof.
  intros [(name & _ & ->)|(first & rest & i & args & -> & _ & _ & _ & Hargs & ->)]
    %parse_line_Return Hinv; simpl; [assumption|].
  unfold after_arity_check.
  destruct (length (comma_split rest) =? length (InstructionEnum.value i))%nat
    eqn:Harity; simpl.
  - intros Herrors. apply Forall_app. split; [by apply Hinv|].
    constructor; [|constructor]. simpl.
    apply Nat.eqb_eq in Harity. apply parse_args_length in Hargs. lia.
  - intros Herrors. by apply app_eq_nil in Herrors as [_ ?].
Qed.

Lemma parse_lines_full_arity (tokens : list (list Tok)) (vars vars' : Vars) :
  parse_lines int_of_str tokens vars = (vars', Return tt) ->
  (Locals.errors vars = [] -> Forall full_arity (Locals.instructions vars)) ->
  Locals.errors vars' = [] -> Forall full_arity (Locals.instructions vars').
Proof.
  revert vars. induction tokens as [|line tokens IH]; intros vars.
  - by intros [= <-].
  - intros (mid & Hline & Hrest)%parse_lines_cons_Return Hinv.
    apply (IH mid); [assumption|]. by eapply parse_line_full_arity.
Qed.

(** X13. In a result that [parse] returns, every instruction has as many
    arguments as its opcode declares positions. The dispatcher itself pairs
    positions and groups as far as both go, and would return fewer; such a
    line has queued an arity error and the file has no result. *)
Theorem parse_result_full_arity (tokens : list (list Tok))
    (result : InstructionsNT.t Register) :
  parse int_of_str tokens = Return result ->
  Forall (fun instruction =>
            length (Instruction.args instruction)
            = length (InstructionEnum.value (Instruction.type instruction)))
         (InstructionsNT.instructions result).
Proof.
  intros (vars & Hloop & Herrors & ->)%parse_Return. simpl.
  apply (parse_lines_full_arity tokens initial vars); try assumption.
  intros _. constructor.
Qed.

(** The instruction a line gives. *)
Local Abbreviation parsed_from :=
  (fun (line : list Tok) (instruction : Instruction.t Register) =>
     exists first rest,
       line = first :: rest /\
       Token.type first = INSTRUCTION /\
       Token.value first = VInstruction (Instruction.type instruction) /\
       parse_args int_of_str (InstructionEnum.value (Instruction.type instruction))
         (comma_split rest)
       = Return (Instruction.args instruction)).

Lemma parse_lines_instructions (tokens : list (list Tok)) (vars vars' : Vars) :
  parse_lines int_of_str tokens vars = (vars', Return tt) ->
  exists new,
    Locals.instructions vars' = Locals.instructions vars ++ new /\
    Forall2 parsed_from (instruction_lines tokens) new.
Proof.
  revert vars. induction tokens as [|line tokens IH]; intros vars.
  - intros [= <-]. exists []. split; [by rewrite app_nil_r|constructor].
  - intros (mid & Hline & (new & -> & Hnew)%IH)%parse_lines_cons_Return.
    apply parse_line_Return in Hline
      as [(name & Hlabel & ->)
         |(first & rest & i & args & -> & Hcolon & Hty & Hval & Hargs & ->)].
    + rewrite (instruction_lines_label name) by assumption. by exists new.
    + rewrite instruction_lines_instruction by assumption.
      exists (Instruction.mk i args :: new).
      split.
      * unfold after_arity_check. destruct (negb _); simpl; by rewrite <- app_assoc.
      * constructor; [|assumption]. by exists first, rest.
Qed.

(** X14. The instructions of a result are those of the file, in the order of
    the file: one for each line that does not end with a colon, made of the
    opcode of the first token of the line and of what the dispatcher returns
    for the groups of the other tokens. Label definitions add none. *)
Theorem parse_result_instructions (tokens : list (list Tok))
    (result : InstructionsNT.t Register) :
  parse int_of_str tokens = Return result ->
  Forall2 (fun line instruction =>
             exists first rest,
               line = first :: rest /\
               Token.type first = INSTRUCTION /\
               Token.value first = VInstruction (Instruction.type instruction) /\
               parse_args int_of_str
                 (InstructionEnum.value (Instruction.type instruction))
                 (comma_split rest)
               = Return (Instruction.args instruction))
    (instruction_lines tokens) (InstructionsNT.instructions result).
Proof.
  intros (vars & Hloop & _ & ->)%parse_Return. simpl.
  apply parse_lines_instructions in Hloop as (new & -> & Hnew). exact Hnew.
Qed.

(** *** The instruction pointer *)

Lemma parse_line_ip (line : list Tok) (vars : Vars) :
  Locals.ip (fst (parse_line int_of_str line vars))
  = Locals.ip vars
    + match line with
      | [] => 0
      | _ :: _ => if ends_with_colon line then 0 else 32
      end.
Proof.
  destruct line as [|first rest]; [simpl; lia|].
  destruct (ends_with_colon (first :: rest)) eqn:Hcolon.
  - unfold parse_line, then_, eval, update, read, assert. simpl in *.
    rewrite Hcolon. repeat (case_match; simplify_eq/=); lia.
  - by apply parse_line_advances_ip.
Qed.

Lemma parse_lines_ip (tokens : list (list Tok)) (vars vars' : Vars) :
  parse_lines int_of_str tokens vars = (vars', Return tt) ->
  Locals.ip vars' = Locals.ip vars + 32 * Z.of_nat (length (instruction_lines tokens)).
Proof.
  revert vars. induction tokens as [|line tokens IH]; intros vars.
  - intros [= <-]. simpl. lia.
  - intros (mid & Hline & ->%IH)%parse_lines_cons_Return.
    pose proof (parse_line_ip line vars) as Hip. rewrite Hline in Hip. simpl in Hip.
    rewrite Hip. unfold instruction_lines. simpl.
    destruct line as [|first rest]; [discriminate|].
    destruct (ends_with_colon (first :: rest)); simpl length; lia.
Qed.

(** X15. The instruction pointer never goes back: however the loop ends,
    completed or left by an exception, the pointer it leaves is the one it
    started with advanced by 32 for some of the lines that do not end with a
    colon, and by nothing else. *)
Theorem parse_lines_ip_bounds (tokens : list (list Tok)) (vars : Vars) :
  Locals.ip vars <= Locals.ip (fst (parse_lines int_of_str tokens vars))
  <= Locals.ip vars + 32 * Z.of_nat (length (instruction_lines tokens)).
Proof.
  revert vars. induction tokens as [|line tokens IH]; intros vars.
  - simpl. lia.
  - assert (Hstep : Locals.ip vars
                    <= Locals.ip (fst (parse_line int_of_str line vars))
                    <= Locals.ip vars
                       + 32 * Z.of_nat (length (instruction_lines [line]))).
    { rewrite parse_line_ip. unfold instruction_lines. simpl.
      destruct line as [|first rest]; [simpl; lia|].
      destruct (ends_with_colon (first :: rest)); simpl; lia. }
    assert (Hcount : length (instruction_lines (line :: tokens))
                     = (length (instruction_lines [line])
                        + length (instruction_lines tokens))%nat).
    { unfold instruction_lines. simpl. by destruct (negb _). }
    rewrite Hcount. simpl. unfold then_.
    destruct (parse_line int_of_str line vars) as [mid [[]| |]]; simpl in *;
      try lia.
    specialize (IH mid). lia.
Qed.

(** *** The symbol table of the result *)

Lemma is_label_definition_name (name name' : string) (line : list Tok) :
  is_label_definition name line = true -> is_label_definition name' line = true ->
  name = name'.
Proof.
  intros (label & colon & -> & _ & Hname & _)%is_label_definition_inv.
  intros (label' & colon' & [= <- <-] & _ & Hname' & _)%is_label_definition_inv.
  congruence.
Qed.

Lemma parse_lines_labels (name : string) (tokens : list (list Tok)) (vars vars' : Vars) :
  parse_lines int_of_str tokens vars = (vars', Return tt) ->
  is_Some (Locals.symbol_table vars' !! name)
  <-> is_Some (Locals.symbol_table vars !! name) \/
      exists line, line ∈ tokens /\ is_label_definition name line = true.
Proof.
  revert vars. induction tokens as [|line tokens IH]; intros vars.
  - intros [= <-]. split; [by left|].
    intros [?|(line & Hin & _)]; [assumption|]. by apply elem_of_nil in Hin.
  - intros (mid & Hline & Hrest%IH)%parse_lines_cons_Return. rewrite Hrest. clear Hrest.
    apply parse_line_Return in Hline
      as [(name' & Hlabel & ->)
         |(first & rest & i & args & -> & Hcolon & _ & _ & _ & ->)].
    + simpl. rewrite lookup_insert. case_decide as Hname.
      * subst name'. split; [|intros _; left; by eexists].
        intros _. right. exists line. split; [apply list_elem_of_here|assumption].
      * split.
        -- intros [?|(line' & Hin & Hdef)]; [by left|].
           right. exists line'. split; [by apply list_elem_of_further|assumption].
        -- intros [?|(line' & [->|Hin]%elem_of_cons & Hdef)]; [by left| |].
           ++ by destruct Hname; eapply is_label_definition_name.
           ++ right. by exists line'.
    + assert (Hsame : Locals.symbol_table
                        (append_instruction (Instruction.mk i args)
                           (after_arity_check i (comma_split rest) (Token.line first) vars))
                      = Locals.symbol_table vars)
        by (unfold after_arity_check; by destruct (negb _)).
      rewrite Hsame. split.
      * intros [?|(line' & Hin & Hdef)]; [by left|].
        right. exists line'. split; [by apply list_elem_of_further|assumption].
      * intros [?|(line' & [->|Hin]%elem_of_cons & Hdef)]; [by left| |].
        -- apply is_label_definition_colon in Hdef. congruence.
        -- right. by exists line'.
Qed.

(** X16. The symbol table of a result holds the labels the file defines and
    no other name: a name has an entry exactly when a line of the file is a
    definition of that label. Instruction lines add no entry. *)
Theorem parse_result_labels (tokens : list (list Tok))
    (result : InstructionsNT.t Register) (name : string) :
  parse int_of_str tokens = Return result ->
  is_Some (InstructionsNT.symbol_table result !! name)
  <-> exists line, line ∈ tokens /\ is_label_definition name line = true.
Proof.
  intros (vars & Hloop & _ & ->)%parse_Return. simpl.
  rewrite (parse_lines_labels name tokens initial vars Hloop). simpl.
  rewrite lookup_empty. split; [|by right].
  intros [[? ?]|?]; [discriminate|assumption].
Qed.

Lemma parse_lines_other_label (name : string) (tokens : list (list Tok))
    (vars vars' : Vars) :
  parse_lines int_of_str tokens vars = (vars', Return tt) ->
  Forall (fun line => is_label_definition name line = false) tokens ->
  Locals.symbol_table vars' !! name = Locals.symbol_table vars !! name.
Proof.
  revert vars. induction tokens as [|line tokens IH]; intros vars.
  - by intros [= <-].
  - intros (mid & Hline & Hrest)%parse_lines_cons_Return Hall.
    inversion Hall as [|? ? Hother Hall']; subst.
    rewrite (IH mid) by assumption.
    apply parse_line_Return in Hline
      as [(name' & Hlabel & ->)
         |(first & rest & i & args & -> & _ & _ & _ & _ & ->)]; simpl.
    + apply lookup_insert_ne. intros ->. congruence.
    + unfold after_arity_check. by destruct (negb _).
Qed.

(** X17. The address of a label in the result. When the file is accepted,
    the label [name] has the address 32 times the number of instruction
    lines that stand before its last definition, plus one. *)
Theorem parse_result_address (pre post : list (list Tok)) (definition : list Tok)
    (name : string) (result : InstructionsNT.t Register) :
  parse int_of_str (pre ++ definition :: post) = Return result ->
  is_label_definition name definition = true ->
  Forall (fun line => is_label_definition name line = false) post ->
  InstructionsNT.symbol_table result !! name
  = Some (32 * Z.of_nat (length (instruction_lines pre)) + 1).
Proof.
  intros (vars & Hloop & _ & ->)%parse_Return Hdef Hpost. simpl.
  apply parse_lines_app_inv in Hloop as (mid & Hpre & Hrest).
  apply parse_lines_cons_Return in Hrest as (mid' & Hline & Hrest).
  rewrite (parse_line_label int_of_str name) in Hline by assumption.
  injection Hline as <-.
  rewrite (parse_lines_other_label name post _ vars Hrest Hpost). simpl.
  rewrite lookup_insert_eq. apply parse_lines_ip in Hpre. rewrite Hpre. simpl.
  reflexivity.
Qed.

(** *** Lines that end with a colon *)

(** X18. A line that ends with a colon and is not a label definition (it has
    not two tokens, its first token is no LABEL token with a string, or its
    colon is no SYNTAX token) is not reported as a parse error: it fails
    an assertion, and the locals are as they were. *)
Theorem parse_line_malformed_label (line : list Tok) (vars : Vars) :
  ends_with_colon line = true ->
  (forall name, is_label_definition name line = false) ->
  parse_line int_of_str line vars = (vars, Raise AssertionError).
Proof.
  intros Hcolon Hnot. destruct line as [|first rest]; [discriminate|].
  unfold parse_line, then_, eval, update, read, assert. simpl in *. rewrite Hcolon.
  destruct (is_TokenType (Token.type (List.last rest first)) SYNTAX) eqn:Hct;
    [|reflexivity].
  destruct rest as [|colon [|]]; try reflexivity. simpl in *.
  destruct (is_TokenType (Token.type first) LABEL) eqn:Hlt; [|reflexivity].
  destruct (Token.value first) as [| | |name|] eqn:Hlv; try reflexivity.
  specialize (Hnot name). simpl in Hnot.
  apply bool_decide_eq_true in Hct, Hlt. apply value_is_true in Hcolon.
  rewrite Hcolon in Hnot. by rewrite !bool_decide_eq_true_2 in Hnot.
Qed.

(** *** What the loop queues and what it raises *)

(** A line leaves [errors] as it is, or appends the arity error of the line,
    whatever becomes of the line afterwards. *)
Lemma parse_line_queue (line : list Tok) (vars : Vars) :
  Locals.errors (fst (parse_line int_of_str line vars)) = Locals.errors vars \/
  exists first rest i,
    line = first :: rest /\ Token.value first = VInstruction i /\
    length (comma_split rest) <> length (InstructionEnum.value i) /\
    Locals.errors (fst (parse_line int_of_str line vars))
    = Locals.errors vars
      ++ [format_error
            (Opcode_takes_arguments (InstructionEnum.name i)
               (length (InstructionEnum.value i)) (length (comma_split rest)))
            (Token.line first)].
Proof.
  destruct line as [|first rest]; [by left|].
  destruct (ends_with_colon (first :: rest)) eqn:Hcolon.
  - left. unfold parse_line, then_, eval, update, read, assert. simpl in *.
    rewrite Hcolon. by repeat (case_match; simplify_eq/=).
  - destruct (is_TokenType (Token.type first) INSTRUCTION) eqn:Hty.
    + apply bool_decide_eq_true in Hty.
      destruct (Token.value first) as [i| | | |] eqn:Hval.
      { rewrite (parse_line_instruction int_of_str first rest i) by assumption.
        unfold after_arity_check.
        destruct (length (comma_split rest) =? length (InstructionEnum.value i))%nat
          eqn:Harity; simpl.
        - left. by destruct (parse_args _ _ _).
        - right. exists first, rest, i. apply Nat.eqb_neq in Harity.
          split; [reflexivity|]. split; [assumption|]. split; [assumption|].
          by destruct (parse_args _ _ _). }
      all: left; unfold parse_line, then_, eval, update, read, assert; simpl in *;
        by rewrite Hcolon, Hty, Hval.
    + left. unfold parse_line, then_, eval, update, read, assert. simpl in *.
      by rewrite Hcolon, Hty.
Qed.

(** A [ParseError] that leaves a line is the one of the dispatcher. *)
Lemma parse_line_ParseError (line : list Tok) (vars : Vars) (es : ErrorText Register) :
  snd (parse_line int_of_str line vars) = Raise_ParseError es ->
  exists first rest i,
    line = first :: rest /\ Token.value first = VInstruction i /\
    parse_args int_of_str (InstructionEnum.value i) (comma_split rest)
    = Raise_ParseError es.
Proof.
  destruct line as [|first rest]; [discriminate|].
  destruct (ends_with_colon (first :: rest)) eqn:Hcolon.
  - unfold parse_line, then_, eval, update, read, assert, assert_str. simpl in *.
    rewrite Hcolon. repeat (case_match; simplify_eq/=); by intros ?; simplify_eq/=.
  - destruct (is_TokenType (Token.type first) INSTRUCTION) eqn:Hty.
    + apply bool_decide_eq_true in Hty.
      destruct (Token.value first) as [i| | | |] eqn:Hval.
      { rewrite (parse_line_instruction int_of_str first rest i) by assumption.
        simpl.
        destruct (parse_args int_of_str (InstructionEnum.value i) (comma_split rest))
          as [args|e|exc] eqn:Hargs; try discriminate.
        intros [= <-]. by exists first, rest, i. }
      all: unfold parse_line, then_, eval, update, read, assert; simpl in *;
        rewrite Hcolon, Hty, Hval; by intros ?; simplify_eq/=.
    + unfold parse_line, then_, eval, update, read, assert. simpl in *.
      rewrite Hcolon, Hty. by intros ?; simplify_eq/=.
Qed.

Local Abbreviation arity_error :=
  (fun e : ErrorText Register =>
     exists opcode expected given line_num,
       e = [(Opcode_takes_arguments opcode expected given, line_num)] /\
       expected <> given).

Lemma parse_lines_queue (tokens : list (list Tok)) (vars : Vars) :
  Forall arity_error (Locals.errors vars) ->
  Forall arity_error (Locals.errors (fst (parse_lines int_of_str tokens vars))).
Proof.
  revert vars. induction tokens as [|line tokens IH]; intros vars Hvars; simpl;
    [assumption|].
  assert (Hline : Forall arity_error
                    (Locals.errors (fst (parse_line int_of_str line vars)))).
  { destruct (parse_line_queue line vars) as [->|(first & rest & i & _ & _ & Hne & ->)];
      [assumption|].
    apply Forall_app. split; [assumption|]. constructor; [|constructor].
    eexists _, _, _, _. split; [reflexivity|]. congruence. }
  unfold then_.
  destruct (parse_line int_of_str line vars) as [mid [[]| |]]; simpl in *;
    try assumption.
  by apply IH.
Qed.

(** X19. The queue [errors] of the loop holds arity errors and nothing else,
    however the loop ends: each queued error is one entry that names an
    opcode with the number of operands it takes and a different number it
    was given. The errors of the operands are never queued. *)
Theorem parse_queue_holds_arity_errors (tokens : list (list Tok)) :
  Forall (fun e =>
            exists opcode expected given line_num,
              e = [(Opcode_takes_arguments opcode expected given, line_num)] /\
              expected <> given)
         (Locals.errors (fst (parse_lines (Register := Register) int_of_str tokens initial))).
Proof. apply parse_lines_queue. constructor. Qed.

(** *** The entries of a failure *)

(** The entry is the arity error of an instruction line of the file. *)
Local Abbreviation arity_entry file entry :=
  (exists (first : Tok) rest i,
     first :: rest ∈ file /\ Token.value first = VInstruction i /\
     length (comma_split rest) <> length (InstructionEnum.value i) /\
     entry = (Opcode_takes_arguments (InstructionEnum.name i)
                (length (InstructionEnum.value i)) (length (comma_split rest)),
              Token.line first)).

(** The entry is an operand error of the instruction line of the file whose
    dispatcher has raised [es]. *)
Local Abbreviation operand_entry file es entry :=
  (exists (first : Tok) rest i,
     first :: rest ∈ file /\ Token.value first = VInstruction i /\
     parse_args int_of_str (InstructionEnum.value i) (comma_split rest)
     = Raise_ParseError es /\
     exists arg_types group arg_type token,
       (arg_types, group) ∈ combine (InstructionEnum.value i) (comma_split rest) /\
       arg_type ∈ as_tuple arg_types /\ head group = Some token /\
       parse_arg int_of_str arg_type group (Token.line token)
       = Raise_ParseError [entry] /\
       snd entry = Token.line token).

Lemma parse_line_raises_operand_entries (file : list (list Tok)) (line : list Tok)
    (vars : Vars) (es : ErrorText Register) :
  line ∈ file ->
  snd (parse_line int_of_str line vars) = Raise_ParseError es ->
  forall entry, entry ∈ es -> operand_entry file es entry.
Proof.
  intros Hline (first & rest & i & -> & Hval & Hargs)%parse_line_ParseError entry Hentry.
  exists first, rest, i. repeat (split; [assumption|]).
  by apply (parse_args_entries int_of_str _ _ es).
Qed.

Lemma parse_line_queues_arity_entries (file : list (list Tok)) (line : list Tok)
    (vars : Vars) :
  line ∈ file ->
  (forall e entry, e ∈ Locals.errors vars -> entry ∈ e -> arity_entry file entry) ->
  forall e entry,
    e ∈ Locals.errors (fst (parse_line int_of_str line vars)) -> entry ∈ e ->
    arity_entry file entry.
Proof.
  intros Hline Hvars e entry.
  destruct (parse_line_queue line vars)
    as [->|(first & rest & i & -> & Hval & Harity & ->)]; [apply Hvars|].
  intros [He| ->%list_elem_of_singleton]%elem_of_app; [by apply Hvars|].
  intros ->%list_elem_of_singleton. by exists first, rest, i.
Qed.

Lemma parse_lines_entries (file tokens : list (list Tok)) (vars : Vars) :
  (forall line, line ∈ tokens -> line ∈ file) ->
  (forall e entry, e ∈ Locals.errors vars -> entry ∈ e -> arity_entry file entry) ->
  (forall e entry,
     e ∈ Locals.errors (fst (parse_lines int_of_str tokens vars)) -> entry ∈ e ->
     arity_entry file entry) /\
  (forall es entry,
     snd (parse_lines int_of_str tokens vars) = Raise_ParseError es -> entry ∈ es ->
     operand_entry file es entry).
Proof.
  revert vars. induction tokens as [|line tokens IH]; intros vars Hfile Hvars; simpl.
  - split; [assumption|discriminate].
  - assert (Hline : line ∈ file) by apply Hfile, list_elem_of_here.
    pose proof (parse_line_queues_arity_entries file line vars Hline Hvars) as Hqueue.
    pose proof (parse_line_raises_operand_entries file line vars) as Hraise.
    unfold then_.
    destruct (parse_line int_of_str line vars) as [mid [[]|e|exc]]; simpl in *.
    + apply IH; [|assumption]. intros line' Hin. by apply Hfile, list_elem_of_further.
    + split; [assumption|]. intros es entry [= <-]. by apply Hraise.
    + split; [assumption|discriminate].
Qed.

(** X20. The entries of a failure. Every entry of a [ParseError] that
    [parse] raises is accounted for by a line of the file. It is the arity
    error of an instruction line with a number of operand groups that is not
    the arity of its opcode, with the line number of the first token of that
    line; or [parse] has been left by the dispatcher's [ParseError] for an
    instruction line, and the entry is the error with which a class of a
    position of the opcode has refused the group of that position, with the
    line number of the first token of the group. *)
Theorem parse_failure_line_numbers (tokens : list (list Tok))
    (es : ErrorText Register) (entry : Message Register * Z) :
  parse int_of_str tokens = Raise_ParseError es -> entry ∈ es ->
  (exists first rest i,
     first :: rest ∈ tokens /\ Token.value first = VInstruction i /\
     length (comma_split rest) <> length (InstructionEnum.value i) /\
     entry = (Opcode_takes_arguments (InstructionEnum.name i)
                (length (InstructionEnum.value i)) (length (comma_split rest)),
              Token.line first)) \/
  (exists first rest i,
     first :: rest ∈ tokens /\ Token.value first = VInstruction i /\
     parse_args int_of_str (InstructionEnum.value i) (comma_split rest)
     = Raise_ParseError es /\
     exists arg_types group arg_type token,
       (arg_types, group) ∈ combine (InstructionEnum.value i) (comma_split rest) /\
       arg_type ∈ as_tuple arg_types /\ head group = Some token /\
       parse_arg int_of_str arg_type group (Token.line token)
       = Raise_ParseError [entry] /\
       snd entry = Token.line token).
Proof.
  rewrite parse_unfold.
  destruct (parse_lines_entries tokens tokens initial) as [Hqueue Hraise];
    [done|intros e entry' Hin; by apply elem_of_nil in Hin|].
  destruct (parse_lines int_of_str tokens initial) as [vars [[]|e|exc]]; simpl in *.
  - destruct (Locals.errors vars) as [|e0 errors] eqn:Herrors; [discriminate|].
    intros [= <-] Hentry. change (entry ∈ concat (e0 :: errors)) in Hentry.
    apply list_elem_of_In, in_concat in Hentry as (e & He & Hentry).
    left. apply (Hqueue e); by apply list_elem_of_In.
  - intros [= <-] Hentry. right. by apply Hraise.
  - discriminate.
Qed.

(** *** The first line that raises *)

(** X21. The first line that raises decides what [parse] raises: the
    exception of that line, a [ParseError] or another, leaves [parse] as it
    is. The errors queued by the lines before are not part of it, and the
    lines after are not read. *)
Theorem parse_first_failure (pre post : list (list Tok)) (line : list Tok)
    (vars : Vars) :
  parse_lines int_of_str pre initial = (vars, Return tt) ->
  snd (parse_line int_of_str line vars) <> Return tt ->
  match snd (parse_line int_of_str line vars) with
  | Return _ => True
  | Raise_ParseError es => parse int_of_str (pre ++ line :: post) = Raise_ParseError es
  | Raise exc => parse int_of_str (pre ++ line :: post) = Raise exc
  end.
Proof.
  intros Hpre Hraise. rewrite parse_unfold, (parse_lines_app_return _ _ _ _ _ Hpre).
  simpl. unfold then_.
  destruct (parse_line int_of_str line vars) as [mid [[]|es|exc]]; simpl in *;
    [done|reflexivity|reflexivity].
Qed.

(** *** The files parse accepts *)

(** The line is accepted on its own: it is the definition of a label, or an
    instruction line with as many operand groups as the opcode has positions
    and operands that the dispatcher parses. *)
Local Abbreviation acceptable :=
  (fun line : list Tok =>
     (exists name, is_label_definition name line = true) \/
     (exists first rest i args,
        line = first :: rest /\ ends_with_colon line = false /\
        Token.type first = INSTRUCTION /\ Token.value first = VInstruction i /\
        length (comma_split rest) = length (InstructionEnum.value i) /\
        parse_args int_of_str (InstructionEnum.value i) (comma_split rest)
        = Return args)).

Lemma parse_lines_acceptable (tokens : list (list Tok)) (vars vars' : Vars) :
  parse_lines int_of_str tokens vars = (vars', Return tt) ->
  Locals.errors vars' = [] ->
  Forall acceptable tokens.
Proof.
  revert vars. induction tokens as [|line tokens IH]; intros vars; [constructor|].
  intros (mid & Hline & Hrest)%parse_lines_cons_Return Herrors.
  assert (Hmid : Locals.errors mid = []).
  { destruct (parse_lines_errors int_of_str tokens mid) as [more Hmore].
    rewrite Hrest in Hmore. simpl in Hmore. rewrite Herrors in Hmore.
    symmetry in Hmore. by apply app_eq_nil in Hmore as [? _]. }
  constructor; [|by eapply IH].
  apply parse_line_Return in Hline
    as [(name & Hlabel & _)
       |(first & rest & i & args & -> & Hcolon & Hty & Hval & Hargs & ->)].
  - left. by exists name.
  - right. exists first, rest, i, args. split; [reflexivity|].
    repeat (split; [assumption|]). split; [|assumption].
    unfold after_arity_check in Hmid.
    destruct (length (comma_split rest) =? length (InstructionEnum.value i))%nat
      eqn:Harity; [by apply Nat.eqb_eq|].
    simpl in Hmid. by apply app_eq_nil in Hmid as [_ ?].
Qed.

Lemma parse_lines_accepts (tokens : list (list Tok)) (vars : Vars) :
  Forall acceptable tokens -> Locals.errors vars = [] ->
  exists vars',
    parse_lines int_of_str tokens vars = (vars', Return tt) /\ Locals.errors vars' = [].
Proof.
  intros Hall. revert vars.
  induction Hall as [|line tokens Hline _ IH]; intros vars Herrors.
  - by exists vars.
  - simpl. unfold then_.
    destruct Hline as [[name Hlabel]
                      |(first & rest & i & args & -> & Hcolon & Hty & Hval & Harity & Hargs)].
    + rewrite (parse_line_label int_of_str name) by assumption. by apply IH.
    + rewrite (parse_line_instruction int_of_str first rest i) by assumption.
      simpl. rewrite Hargs. apply IH. unfold after_arity_check.
      by rewrite Harity, Nat.eqb_refl.
Qed.

(** X22. The files [parse] accepts. [parse] returns a result for a file
    exactly when every line of the file is accepted on its own: whether a
    line is accepted depends on no other line of the file. *)
Theorem parse_accepts (tokens : list (list Tok)) :
  (exists result, parse int_of_str tokens = Return result)
  <-> Forall (fun line =>
                (exists name, is_label_definition name line = true) \/
                (exists first rest i args,
                   line = first :: rest /\ ends_with_colon line = false /\
                   Token.type first = INSTRUCTION /\
                   Token.value first = VInstruction i /\
                   length (comma_split rest) = length (InstructionEnum.value i) /\
                   parse_args int_of_str (InstructionEnum.value i) (comma_split rest)
                   = Return args))
             tokens.
Proof.
  split.
  - intros [result (vars & Hloop & Herrors & _)%parse_Return].
    by eapply parse_lines_acceptable.
  - intros Hall.
    destruct (parse_lines_accepts tokens initial Hall eq_refl) as (vars & Hloop & Herrors).
    rewrite parse_unfold, Hloop, Herrors. by eexists.
Qed.

End LineLoop.

(** ** Concrete cases of the further properties *)

(** X2 on [R1, R2]. *)
Lemma comma_split_two_registers :
  let r1 := register_token R1 "R1" 1 in
  let r2 := register_token R2 "R2" 1 in
  let comma := syntax_token (Register := SampleRegister) Syntax_comma "," 1 in
  comma_split [r1; comma; r2] = [[r1]; [r2]] /\ comma_split [r1] = [[r1]].
Proof.
  intros r1 r2 comma.
  destruct (comma_split_cons [r1] [r2] comma) as [Hcut Hgroup];
    [repeat constructor | reflexivity |].
  split; [exact Hcut | apply Hgroup; discriminate].
Defined.

(** X4 on [R1,] and on [,,]. *)
Lemma comma_split_commas_at_the_end :
  let r1 := register_token R1 "R1" 1 in
  let comma := syntax_token (Register := SampleRegister) Syntax_comma "," 1 in
  comma_split [r1; comma] = [[r1]] /\ comma_split [comma; comma] = [[]; []].
Proof.
  intros r1 comma. split.
  - exact (comma_split_trailing_comma [r1] comma eq_refl).
  - exact (comma_split_trailing_comma [comma] comma eq_refl).
Defined.

(** X6 on the slice [5], a token of line 7, parsed as a register for line 3. *)
Lemma register_error_at_line_3 :
  let tokens := [uint_token (Register := SampleRegister) 5 "5" 7] in
  parse_arg decimal Register_t tokens 3
  = Raise_ParseError [(Token_instead_of "5" [REGISTER], 3)] /\
  exists message,
    [(Token_instead_of (Register := SampleRegister) "5" [REGISTER], 3)] = [(message, 3)].
Proof.
  intros tokens. split; [reflexivity|].
  exact (parse_arg_error_line decimal Register_t tokens 3 _ eq_refl).
Defined.

(** X7 on the string "65536" as a 16-bit immediate. *)
Lemma string_overflow_blames_string_token :
  let token := string_token (Register := SampleRegister) "65536" "'65536'" 1 in
  parse_arg decimal Uint16_t [token] 1 = Raise AssertionError /\
  AssertionError <> IndexError /\ AssertionError <> UnboundLocalError /\
  exists bad, bad ∈ [token] /\ (well_typed bad = false \/ Token.type bad = STRING).
Proof.
  intros token. split; [reflexivity|].
  exact (parse_arg_exceptions decimal Uint16_t [token] 1 AssertionError eq_refl).
Defined.

(** X10 on the empty group of [NOT ,]. *)
Lemma dispatcher_index_error_has_empty_group :
  parse_args (Register := SampleRegister) decimal (InstructionEnum.value NOT) [[]]
  = Raise IndexError /\
  ((IndexError = IndexError /\ [] ∈ [@nil (Token.t SampleRegister)]) \/
   (IndexError = UnboundLocalError /\
    exists arg_types, arg_types ∈ InstructionEnum.value NOT /\ as_tuple arg_types = []) \/
   (IndexError <> IndexError /\ IndexError <> UnboundLocalError /\
    exists arg token,
      arg ∈ [@nil (Token.t SampleRegister)] /\ token ∈ arg /\
      (well_typed token = false \/ Token.type token = STRING))).
Proof.
  split; [reflexivity|].
  exact (parse_args_exceptions decimal (InstructionEnum.value NOT) [[]] IndexError eq_refl).
Defined.

(** X11 on the operands [R1, 5] of [MOV]: the second position takes the
    number after its first class, the register, has refused it. *)
Lemma MOV_register_number :
  let args : list (list (Token.t SampleRegister)) :=
    [[register_token R1 "R1" 1]; [uint_token 5 "5" 1]] in
  let values := [ArgRegister R1; ArgNumber {| num_type := Uint16; num := 5 |}] in
  parse_args decimal (InstructionEnum.value MOV) args = Return values /\
  length values = Nat.min (length (InstructionEnum.value MOV)) (length args) /\
  Forall2
    (fun pair value =>
       exists refused arg_type rest first,
         as_tuple (fst pair) = refused ++ arg_type :: rest /\
         head (snd pair) = Some first /\
         Forall (fun t => exists e,
                   parse_arg decimal t (snd pair) (Token.line first) = Raise_ParseError e)
                refused /\
         parse_arg decimal arg_type (snd pair) (Token.line first) = Return value)
    (combine (InstructionEnum.value MOV) args) values.
Proof.
  intros args values. split; [reflexivity|].
  exact (parse_args_values decimal (InstructionEnum.value MOV) args values eq_refl).
Defined.

(** X12 on the operands [5, R1, 7] of [ADD]: the third operand is reported
    although the first has been refused already. *)
Lemma ADD_third_operand_reported :
  let args : list (list (Token.t SampleRegister)) :=
    [[uint_token 5 "5" 1]; [register_token R1 "R1" 1]; [uint_token 7 "7" 1]] in
  let es := [(Token_instead_of "5" [REGISTER], 1); (Token_instead_of "7" [REGISTER], 1)] in
  parse_args decimal (InstructionEnum.value ADD) args = Raise_ParseError es /\
  (Token_instead_of "7" [REGISTER], 1) ∈ es.
Proof.
  intros args es. split; [reflexivity|].
  apply (parse_args_reports_every_refusal decimal (InstructionEnum.value ADD) args es
           (Single Register_t) [uint_token 7 "7" 1] (uint_token 7 "7" 1)
           [] Register_t [(Token_instead_of "7" [REGISTER], 1)]).
  - reflexivity.
  - simpl. do 2 apply list_elem_of_further. apply list_elem_of_here.
  - reflexivity.
  - reflexivity.
  - constructor.
  - reflexivity.
  - apply list_elem_of_here.
Defined.

(** X13 and X14 on the file [ADD R1, R2, R3], [loop:], [NOT R2]. *)
Lemma two_instructions_full_arity :
  let tokens : list (list (Token.t SampleRegister)) :=
    [ [ instruction_token ADD "ADD" 1; register_token R1 "R1" 1;
        syntax_token Syntax_comma "," 1; register_token R2 "R2" 1;
        syntax_token Syntax_comma "," 1; register_token R3 "R3" 1 ];
      label_line "loop" 2;
      [ instruction_token NOT "NOT" 3; register_token R2 "R2" 3 ] ] in
  Forall (fun instruction =>
            length (Instruction.args instruction)
            = length (InstructionEnum.value (Instruction.type instruction)))
    [ Instruction.mk ADD [ArgRegister R1; ArgRegister R2; ArgRegister R3];
      Instruction.mk NOT [ArgRegister R2] ].
Proof.
  intros tokens. exact (parse_result_full_arity decimal tokens _ eq_refl).
Defined.

Lemma two_instructions_in_order :
  let tokens : list (list (Token.t SampleRegister)) :=
    [ [ instruction_token ADD "ADD" 1; register_token R1 "R1" 1;
        syntax_token Syntax_comma "," 1; register_token R2 "R2" 1;
        syntax_token Syntax_comma "," 1; register_token R3 "R3" 1 ];
      label_line "loop" 2;
      [ instruction_token NOT "NOT" 3; register_token R2 "R2" 3 ] ] in
  Forall2 (fun line instruction =>
             exists first rest,
               line = first :: rest /\
               Token.type first = INSTRUCTION /\
               Token.value first = VInstruction (Instruction.type instruction) /\
               parse_args decimal
                 (InstructionEnum.value (Instruction.type instruction))
                 (comma_split rest)
               = Return (Instruction.args instruction))
    (instruction_lines tokens)
    [ Instruction.mk ADD [ArgRegister R1; ArgRegister R2; ArgRegister R3];
      Instruction.mk NOT [ArgRegister R2] ].
Proof.
  intros tokens. exact (parse_result_instructions decimal tokens _ eq_refl).
Defined.

(** X16 and X17 on the file [ADD R1, R2, R3], [NOT R1], [end:], [NOT R2]: the
    table has [end], at 65, and has no [loop]. *)
Lemma label_after_two_instructions :
  let pre : list (list (Token.t SampleRegister)) :=
    [ [ instruction_token ADD "ADD" 1; register_token R1 "R1" 1;
        syntax_token Syntax_comma "," 1; register_token R2 "R2" 1;
        syntax_token Syntax_comma "," 1; register_token R3 "R3" 1 ];
      [ instruction_token NOT "NOT" 2; register_token R1 "R1" 2 ] ] in
  let post : list (list (Token.t SampleRegister)) :=
    [ [ instruction_token NOT "NOT" 4; register_token R2 "R2" 4 ] ] in
  exists result,
    parse decimal (pre ++ label_line "end" 3 :: post) = Return result /\
    InstructionsNT.symbol_table result !! "end" = Some 65.
Proof.
  intros pre post. eexists. split; [reflexivity|].
  apply (parse_result_address decimal pre post (label_line "end" 3) "end" _ eq_refl).
  - reflexivity.
  - repeat constructor.
Defined.

Lemma only_defined_labels :
  let tokens : list (list (Token.t SampleRegister)) :=
    [ [ instruction_token NOT "NOT" 1; register_token R1 "R1" 1 ];
      label_line "end" 2 ] in
  exists result,
    parse decimal tokens = Return result /\
    (is_Some (InstructionsNT.symbol_table result !! "loop")
     <-> exists line, line ∈ tokens /\ is_label_definition "loop" line = true).
Proof.
  intros tokens. eexists. split; [reflexivity|].
  exact (parse_result_labels decimal tokens _ "loop" eq_refl).
Defined.

(** X18 on [loop 5 :], a line of three tokens that ends with a colon. *)
Lemma three_token_label_line :
  let line : list (Token.t SampleRegister) :=
    [ label_token "loop" "loop" 1; uint_token 5 "5" 1;
      syntax_token Syntax_colon ":" 1 ] in
  parse_line decimal line initial = (initial, Raise AssertionError).
Proof.
  intros line. apply (parse_line_malformed_label decimal line initial).
  - reflexivity.
  - intros name. reflexivity.
Defined.

(** X20 on [NOT 5], a line whose tokens have the line number 4: the entry
    of the failure is the refusal of the group [5] by the register class of
    the only position of [NOT]. *)
Lemma failure_at_line_4 :
  let first := instruction_token (Register := SampleRegister) NOT "NOT" 4 in
  let five := uint_token (Register := SampleRegister) 5 "5" 4 in
  let entry := (Token_instead_of (Register := SampleRegister) "5" [REGISTER], 4) in
  parse decimal [[first; five]] = Raise_ParseError [entry] /\
  ((exists first' rest i,
      first' :: rest ∈ [[first; five]] /\ Token.value first' = VInstruction i /\
      length (comma_split rest) <> length (InstructionEnum.value i) /\
      entry = (Opcode_takes_arguments (InstructionEnum.name i)
                 (length (InstructionEnum.value i)) (length (comma_split rest)),
               Token.line first')) \/
   (exists first' rest i,
      first' :: rest ∈ [[first; five]] /\ Token.value first' = VInstruction i /\
      parse_args decimal (InstructionEnum.value i) (comma_split rest)
      = Raise_ParseError [entry] /\
      exists arg_types group arg_type token,
        (arg_types, group) ∈ combine (InstructionEnum.value i) (comma_split rest) /\
        arg_type ∈ as_tuple arg_types /\ head group = Some token /\
        parse_arg decimal arg_type group (Token.line token) = Raise_ParseError [entry] /\
        snd entry = Token.line token)).
Proof.
  intros first five entry. split; [reflexivity|].
  apply (parse_failure_line_numbers decimal [[first; five]] [entry] entry).
  - reflexivity.
  - apply list_elem_of_here.
Defined.

(** X21 on [ADD R1, R2], which queues an arity error, followed by [NOT 5] and
    by a line that is not read. *)
Lemma second_line_decides :
  let pre : list (list (Token.t SampleRegister)) :=
    [ [ instruction_token ADD "ADD" 1; register_token R1 "R1" 1;
        syntax_token Syntax_comma "," 1; register_token R2 "R2" 1 ] ] in
  let line := [ instruction_token NOT "NOT" 2; uint_token 5 "5" 2 ] in
  let post := [ [ syntax_token Syntax_colon ":" 3 ] ] in
  parse decimal (pre ++ line :: post)
  = Raise_ParseError [(Token_instead_of "5" [REGISTER], 2)].
Proof.
  intros pre line post.
  refine (parse_first_failure decimal pre post line _ eq_refl _).
  simpl. discriminate.
Defined.
